(** * Logic/Environment.py: the Interpreter

    A shallow embedding of the [Interpreter] class of
    [Logic/Environment.py]: the block-skip engine that runs one event's
    command list ([__interpretEvent], [__getNextIndex]), the script
    loader ([loadScript]), the thread life cycle ([startThread],
    [endThread], [isRunning], [getStatus]) and the variable store with
    its expression sandbox ([setVariable], [getVariable],
    [evaluateExpression], [evaluateScript]).

    Python objects that live outside this file (the command and event
    classes of [Commands.py] and [Events.py], the builtins [eval] and
    [exec], the worker thread) enter as parameters. *)

From Stdlib Require Import ZArith Lia Bool SpecFloat.
From stdpp Require Import gmap strings list fin_maps sorting.

(** ** Commands and events as the interpreter sees them *)

(** [type(command)] is only ever compared with the three sentinel
    classes; every other class of [Commands.py] behaves alike here. *)
Inductive CommandType :=
| StartBlockCommand
| EndBlockCommand
| ElseCommand
| OtherCommand (typeLogic : string).

(** What [__interpretEvent] makes of the value returned by
    [command.run()]: the string ["Exit"], the object [False], or
    anything else. *)
Inductive Outcome := Continue | Skip | Exit.

Definition isStartBlock (t : CommandType) : bool :=
  match t with StartBlockCommand => true | _ => false end.

Definition isEndBlock (t : CommandType) : bool :=
  match t with EndBlockCommand => true | _ => false end.

Definition isElse (t : CommandType) : bool :=
  match t with ElseCommand => true | _ => false end.

(** A sentinel is one of the three marker classes. *)
Definition isSentinel (t : CommandType) : bool :=
  isStartBlock t || isEndBlock t || isElse t.

(** A block sentinel is a [StartBlockCommand] or an [EndBlockCommand]. *)
Definition isBlockSentinel (t : CommandType) : bool :=
  isStartBlock t || isEndBlock t.

Section Executor.

(** Everything a command can read or change when it runs: the robot,
    the vision system, the interpreter's variables, and the exit flag
    that another thread may raise meanwhile. *)
Context {World : Type}.

(** [self.isExiting()] as observed by the worker thread. *)
Variable exitFlag : World -> bool.

Record Command := {
  cmdType   : CommandType;
  run       : World -> Outcome * World;
  cmdErrors : list string
}.

(** *** [__getNextIndex] *)

Definition skipToIndent : Z := 0.

(** The body of [for i in range(index + 1, len(commandList))]: [rest]
    is [commandList[i:]], [len] is [len(commandList)].  A loop that
    runs out without [break] leaves [index] as it was. *)
Fixpoint getNextIndex_loop (rest : list Command) (i len : nat)
         (nextIndent : Z) (index : nat) : nat :=
  match rest with
  | [] => index
  | c :: rest' =>
      let nextIndent :=
        if isStartBlock (cmdType c) then (nextIndent + 1)%Z else nextIndent in
      if (nextIndent =? skipToIndent)%Z then i - 1
      else if (Z.of_nat i =? Z.of_nat len - 1)%Z then i
      else
        let nextIndent :=
          if isEndBlock (cmdType c) then (nextIndent - 1)%Z else nextIndent in
        getNextIndex_loop rest' (S i) len nextIndent index
  end.

Definition getNextIndex (index : nat) (commandList : list Command) : nat :=
  getNextIndex_loop (drop (index + 1) commandList) (index + 1)
                    (length commandList) 0%Z index.

(** *** [__interpretEvent] *)

(** The cursor after the command at [index] returned [evaluation];
    [None] is the [break] on ["Exit"]. *)
Definition nextCursor (commandList : list Command) (index : nat)
           (evaluation : Outcome) : option nat :=
  match evaluation with
  | Exit => None
  | Skip => Some (getNextIndex index commandList + 1)
  | Continue =>
      match commandList !! (index + 1) with
      | Some next =>
          if isElse (cmdType next)
          then Some (getNextIndex (index + 1) commandList + 1)
          else Some (index + 1)
      | None => Some (index + 1)
      end
  end.

(** The [while index < len(event.commandList)] loop.  [ran] is
    [self.currRunning[eventIndex]]; [None] means the fuel ran out. *)
Fixpoint interpretEvent_loop (fuel : nat) (commandList : list Command)
         (overrideKillApp : bool) (index : nat) (ran : list nat)
         (w : World) : option (list nat * World) :=
  match fuel with
  | O => None
  | S fuel' =>
      match commandList !! index with
      | None => Some (ran, w)
      | Some command =>
          if exitFlag w && negb overrideKillApp then Some (ran, w)
          else
            let ran := ran ++ [index] in
            let '(evaluation, w) := run command w in
            match nextCursor commandList index evaluation with
            | None => Some (ran, w)
            | Some index' =>
                interpretEvent_loop fuel' commandList overrideKillApp
                                    index' ran w
            end
      end
  end.

(** One pass over an event's command list, with enough fuel for every
    position. *)
Definition interpretEvent (commandList : list Command)
           (overrideKillApp : bool) (w : World) : option (list nat * World) :=
  interpretEvent_loop (S (length commandList)) commandList overrideKillApp
                      0 [] w.

End Executor.

Arguments Command World : clear implicits.

(** ** Python values and the runtime the sandbox rests on *)

(** The values the variable store can hold.  Floats are IEEE binary64,
    which is what Python's [float] is. *)
Inductive Value :=
| VNone
| VInt (z : Z)
| VFloat (f : spec_float)
| VStr (s : string)
| VBuiltin (name : string)      (* a builtin function, such as [abs] *)
| VObject (name : string).      (* any other object: the robot, the vision *)

Definition isNone (v : Value) : bool :=
  match v with VNone => true | _ => false end.

(** [eval] either returns a value or raises; the bare [except:] of the
    source does not look at the exception. *)
Inductive EvalOutcome :=
| Returned (v : Value)
| Raised.

(** [exec] runs on a snapshot of the caller's local names: what it
    binds there never reaches the caller's own variables. *)
Inductive ExecOutcome :=
| Completed (snapshot : gmap string Value)
| ExecRaised.

(** *** A fragment of Python expressions

    Integer literals, names, unary minus, [+ - * /], parentheses and
    calls of a name.  [expr_eval] answers [None] wherever the fragment
    does not determine what Python does; where it answers [Some], that
    is what [eval(expression, {"__builtins__": None}, variables)]
    does. *)
Module PyExpr.

Inductive Sym := SPlus | SMinus | SStar | SSlash | SLParen | SRParen | SComma.

Inductive Token :=
| TInt (z : Z)
| TName (x : string)
| TSym (s : Sym).

Inductive BinOp := Add | Sub | Mul | Div.

#[local] Unset Elimination Schemes.
Inductive Expr :=
| EInt (z : Z)
| EName (x : string)
| ENeg (e : Expr)
| EBin (op : BinOp) (a b : Expr)
| ECall (f : string) (args : list Expr).
#[local] Set Elimination Schemes.

Definition code (c : Ascii.ascii) : Z := Z.of_nat (Ascii.nat_of_ascii c).

Definition digit_of (c : Ascii.ascii) : option Z :=
  let n := code c in
  if ((48 <=? n) && (n <=? 57))%Z then Some (n - 48)%Z else None.

Definition is_name_char (c : Ascii.ascii) : bool :=
  let n := code c in
  (((65 <=? n) && (n <=? 90)) || ((97 <=? n) && (n <=? 122)) || (n =? 95))%Z.

(** The characters [+ - * / ( ) ,] by their codes. *)
Definition sym_of (c : Ascii.ascii) : option Sym :=
  let n := code c in
  if (n =? 43)%Z then Some SPlus
  else if (n =? 45)%Z then Some SMinus
  else if (n =? 42)%Z then Some SStar
  else if (n =? 47)%Z then Some SSlash
  else if (n =? 40)%Z then Some SLParen
  else if (n =? 41)%Z then Some SRParen
  else if (n =? 44)%Z then Some SComma
  else None.

Definition is_space (c : Ascii.ascii) : bool := (code c =? 32)%Z.

(** Reserved words are not names. *)
Definition keywords : list string :=
  ["False"; "None"; "True"; "and"; "as"; "assert"; "async"; "await";
   "break"; "class"; "continue"; "def"; "del"; "elif"; "else"; "except";
   "finally"; "for"; "from"; "global"; "if"; "import"; "in"; "is";
   "lambda"; "nonlocal"; "not"; "or"; "pass"; "raise"; "return"; "try";
   "while"; "with"; "yield"; "exec"; "print"].

Definition flush (cur : option Token) (acc : list Token) : option (list Token) :=
  match cur with
  | None => Some acc
  | Some (TName x) =>
      if bool_decide (x ∈ keywords) then None else Some (acc ++ [TName x])
  | Some t => Some (acc ++ [t])
  end.

(** One character at a time; [cur] is the literal or name being
    read.  A number followed by a letter, a literal with a leading
    zero and any other character are left to Python. *)
Fixpoint tokenize (s : string) (cur : option Token) (acc : list Token)
  : option (list Token) :=
  match s with
  | EmptyString => flush cur acc
  | String c s' =>
      match digit_of c, cur with
      | Some d, None => tokenize s' (Some (TInt d)) acc
      | Some d, Some (TInt z) =>
          if (z =? 0)%Z then None
          else tokenize s' (Some (TInt (10 * z + d)%Z)) acc
      | Some d, Some (TName x) =>
          tokenize s' (Some (TName (x +:+ String c EmptyString))) acc
      | Some d, Some (TSym _) => None
      | None, _ =>
          if is_name_char c then
            match cur with
            | None => tokenize s' (Some (TName (String c EmptyString))) acc
            | Some (TName x) =>
                tokenize s' (Some (TName (x +:+ String c EmptyString))) acc
            | Some _ => None
            end
          else if is_space c then
            match flush cur acc with
            | Some acc' => tokenize s' None acc'
            | None => None
            end
          else
            match sym_of c, flush cur acc with
            | Some y, Some acc' => tokenize s' None (acc' ++ [TSym y])
            | _, _ => None
            end
      end
  end.

(** Recursive descent; every call spends one unit of fuel. *)
Fixpoint parse_expr (fuel : nat) (ts : list Token) : option (Expr * list Token) :=
  match fuel with
  | O => None
  | S n =>
      match parse_term n ts with
      | Some (e, ts') => parse_expr_rest n e ts'
      | None => None
      end
  end
with parse_expr_rest (fuel : nat) (lhs : Expr) (ts : list Token)
  : option (Expr * list Token) :=
  match fuel with
  | O => None
  | S n =>
      match ts with
      | TSym SPlus :: ts' =>
          match parse_term n ts' with
          | Some (e, ts'') => parse_expr_rest n (EBin Add lhs e) ts''
          | None => None
          end
      | TSym SMinus :: ts' =>
          match parse_term n ts' with
          | Some (e, ts'') => parse_expr_rest n (EBin Sub lhs e) ts''
          | None => None
          end
      | _ => Some (lhs, ts)
      end
  end
with parse_term (fuel : nat) (ts : list Token) : option (Expr * list Token) :=
  match fuel with
  | O => None
  | S n =>
      match parse_factor n ts with
      | Some (e, ts') => parse_term_rest n e ts'
      | None => None
      end
  end
with parse_term_rest (fuel : nat) (lhs : Expr) (ts : list Token)
  : option (Expr * list Token) :=
  match fuel with
  | O => None
  | S n =>
      match ts with
      | TSym SStar :: ts' =>
          match parse_factor n ts' with
          | Some (e, ts'') => parse_term_rest n (EBin Mul lhs e) ts''
          | None => None
          end
      | TSym SSlash :: ts' =>
          match parse_factor n ts' with
          | Some (e, ts'') => parse_term_rest n (EBin Div lhs e) ts''
          | None => None
          end
      | _ => Some (lhs, ts)
      end
  end
with parse_factor (fuel : nat) (ts : list Token) : option (Expr * list Token) :=
  match fuel with
  | O => None
  | S n =>
      match ts with
      | TSym SMinus :: ts' =>
          match parse_factor n ts' with
          | Some (e, ts'') => Some (ENeg e, ts'')
          | None => None
          end
      | TInt z :: ts' => Some (EInt z, ts')
      | TName f :: TSym SLParen :: TSym SRParen :: ts' => Some (ECall f [], ts')
      | TName f :: TSym SLParen :: ts' =>
          match parse_args n ts' with
          | Some (args, ts'') => Some (ECall f args, ts'')
          | None => None
          end
      | TName x :: ts' => Some (EName x, ts')
      | TSym SLParen :: ts' =>
          match parse_expr n ts' with
          | Some (e, TSym SRParen :: ts'') => Some (e, ts'')
          | _ => None
          end
      | _ => None
      end
  end
with parse_args (fuel : nat) (ts : list Token) : option (list Expr * list Token) :=
  match fuel with
  | O => None
  | S n =>
      match parse_expr n ts with
      | Some (e, TSym SRParen :: ts') => Some ([e], ts')
      | Some (e, TSym SComma :: ts') =>
          match parse_args n ts' with
          | Some (es, ts'') => Some (e :: es, ts'')
          | None => None
          end
      | _ => None
      end
  end.

Definition parse (s : string) : option Expr :=
  match tokenize s None [] with
  | Some ts =>
      match parse_expr (8 * length ts + 8) ts with
      | Some (e, []) => Some e
      | _ => None
      end
  | None => None
  end.

(** Python floats are binary64. *)
Definition prec : Z := 53.
Definition emax : Z := 1024.

(** An integer as a float, for the integers that are floats exactly. *)
Definition float_of_int (z : Z) : option spec_float :=
  if (Z.abs z <? 2 ^ 53)%Z
  then Some (binary_normalize prec emax z 0 false)
  else None.

(** [-v].  [None], functions and strings have no negation. *)
Definition eval_neg (v : Value) : option EvalOutcome :=
  match v with
  | VInt z => Some (Returned (VInt (- z)))
  | VFloat f => Some (Returned (VFloat (SFopp f)))
  | VNone | VStr _ | VBuiltin _ => Some Raised
  | VObject _ => None
  end.

(** [a op b].  Integers are unbounded; [/] on integers is true
    division and raises on a zero divisor; [None] and builtin
    functions take part in no arithmetic with each other or with
    integers. *)
Definition eval_binop (op : BinOp) (a b : Value) : option EvalOutcome :=
  match a, b with
  | VInt x, VInt y =>
      match op with
      | Add => Some (Returned (VInt (x + y)))
      | Sub => Some (Returned (VInt (x - y)))
      | Mul => Some (Returned (VInt (x * y)))
      | Div =>
          if (y =? 0)%Z then Some Raised
          else match float_of_int x, float_of_int y with
               | Some fx, Some fy =>
                   Some (Returned (VFloat (SFdiv prec emax fx fy)))
               | _, _ => None
               end
      end
  | (VNone | VBuiltin _), (VNone | VBuiltin _ | VInt _) => Some Raised
  | VInt _, (VNone | VBuiltin _) => Some Raised
  | _, _ => None
  end.

(** [callee(args)].  [VBuiltin "abs"] is the builtin [abs] and
    [VBuiltin "sqrt"] is [math.sqrt]; [None] and numbers are not
    callable. *)
Definition eval_call (callee : Value) (args : list Value) : option EvalOutcome :=
  match callee with
  | VNone | VInt _ | VFloat _ | VStr _ => Some Raised
  | VBuiltin name =>
      if String.eqb name "abs" then
        match args with
        | [VInt z] => Some (Returned (VInt (Z.abs z)))
        | [VFloat f] => Some (Returned (VFloat (SFabs f)))
        | [VObject _] => None
        | _ => Some Raised
        end
      else if String.eqb name "sqrt" then
        match args with
        | [VInt z] =>
            if (z <? 0)%Z then Some Raised
            else match float_of_int z with
                 | Some f => Some (Returned (VFloat (SFsqrt prec emax f)))
                 | None => None
                 end
        | _ => None
        end
      else None
  | VObject _ => None
  end.

(** Names are looked up in [vars] alone: the globals are empty and
    the builtins are switched off, so an unbound name raises.  The
    callee is looked up before the arguments are evaluated, operands
    go left to right. *)
Fixpoint eval (e : Expr) (vars : gmap string Value) : option EvalOutcome :=
  match e with
  | EInt z => Some (Returned (VInt z))
  | EName x =>
      match vars !! x with
      | Some v => Some (Returned v)
      | None => Some Raised
      end
  | ENeg a =>
      match eval a vars with
      | Some (Returned v) => eval_neg v
      | r => r
      end
  | EBin op a b =>
      match eval a vars with
      | Some (Returned va) =>
          match eval b vars with
          | Some (Returned vb) => eval_binop op va vb
          | r => r
          end
      | r => r
      end
  | ECall f args =>
      match vars !! f with
      | None => Some Raised
      | Some callee =>
          let eval_args :=
            fix eval_args (l : list Expr) : option (option (list Value)) :=
              match l with
              | [] => Some (Some [])
              | a :: l' =>
                  match eval a vars with
                  | Some (Returned v) =>
                      match eval_args l' with
                      | Some (Some vs) => Some (Some (v :: vs))
                      | r => r
                      end
                  | Some Raised => Some None
                  | None => None
                  end
              end in
          match eval_args args with
          | Some (Some vs) => eval_call callee vs
          | Some None => Some Raised
          | None => None
          end
      end
  end.

Definition expr_eval (expression : string) (vars : gmap string Value)
  : option EvalOutcome :=
  match parse expression with
  | Some e => eval e vars
  | None => None
  end.

(** An [eval] agrees with the fragment wherever the fragment
    answers. *)
Definition agrees (py_eval : string -> gmap string Value -> EvalOutcome) : Prop :=
  forall expression vars r,
    expr_eval expression vars = Some r -> py_eval expression vars = r.

(** The fragment made total: whatever it leaves open raises. *)
Definition strict_eval (expression : string) (vars : gmap string Value)
  : EvalOutcome :=
  default Raised (expr_eval expression vars).

End PyExpr.

(** ** The interpreter *)

(** What [loadScript] reads: the script of a [.task] file, a list of
    event descriptors with the keys [typeLogic], [parameters] and
    [commandList]. *)
Record CommandSave {Params : Type} := {
  cs_typeLogic  : string;
  cs_parameters : Params
}.
Arguments CommandSave Params : clear implicits.

Record EventSave {Params : Type} := {
  es_typeLogic   : string;
  es_parameters  : Params;
  es_commandList : list (CommandSave Params)
}.
Arguments EventSave Params : clear implicits.

(** An event object of [Events.py], as far as the interpreter touches
    it: its command list, its construction errors, its activation
    test. *)
Record Event {World : Type} := {
  eventClass  : string;
  commandList : list (Command World);
  evErrors    : list string;
  isActive    : World -> bool
}.
Arguments Event World : clear implicits.

(** [event.addCommand(command)] *)
Definition addCommand {World} (event : Event World) (command : Command World)
  : Event World :=
  {| eventClass  := eventClass event;
     commandList := commandList event ++ [command];
     evErrors    := evErrors event;
     isActive    := isActive event |}.

(** The [Environment] singleton, reduced to the two handles the
    interpreter asks it for. *)
Record Environment := {
  getRobot  : Value;
  getVision : Value
}.

(** The worker thread object held in [self.mainThread]. *)
Variant Thread := ProgramThread.

(** [self.currRunning] starts life as the list [[]] and is a dict from
    [startThread] on. *)
Inductive CurrRunning :=
| EmptyList
| RunDict (d : gmap nat (list nat)).

(** What [getStatus] hands back. *)
Inductive Status :=
| StatusFalse
| StatusRunning (currRunning : CurrRunning).

(** Calls made on the robot and vision handles, in order. *)
Inductive HandleCall :=
| VisionSetExiting (b : bool)
| RobotSetExiting (b : bool)
| RobotSetActiveServosAll
| RobotSetSpeed (speed : Z)
| VisionEndAllTrackers.

Record Interpreter {World : Type} := {
  mainThread  : option Thread;
  exiting     : bool;                    (* [self.__exiting] *)
  scriptFPS   : Z;
  events      : list (Event World);
  currRunning : CurrRunning;
  variables   : gmap string Value        (* [self.__variables] *)
}.
Arguments Interpreter World : clear implicits.

(** What a method that may raise leaves behind. *)
Inductive Result (A : Type) :=
| Return (a : A)
| Raise.
Arguments Return {A} a.
Arguments Raise {A}.

Section Interpreter.

Context {World Params : Type}.

Abbreviation Interp := (Interpreter World).

(** [getattr(Events, tag)] and [getattr(Commands, tag)]: the class
    registered under a tag, if any, as a constructor from the
    environment and the descriptor's parameters.  [getattr] raises
    [AttributeError] on a tag that names nothing. *)
Variable Events_getattr :
  string -> option (Environment -> Params -> Event World).
Variable Commands_getattr :
  string -> option (Environment -> Params -> Command World).

(** The builtins [eval] and [exec]. *)
Variable py_eval : string -> gmap string Value -> EvalOutcome.
Variable py_exec : string -> gmap string Value -> ExecOutcome.

(** [Interpreter.__init__] *)
Definition init : Interp :=
  {| mainThread  := None;
     exiting     := true;
     scriptFPS   := 50;
     events      := [];
     currRunning := EmptyList;
     variables   := ∅ |}.

Definition set_events (s : Interp) (evs : list (Event World)) : Interp :=
  {| mainThread := mainThread s; exiting := exiting s;
     scriptFPS := scriptFPS s; events := evs;
     currRunning := currRunning s; variables := variables s |}.

Definition set_variables (s : Interp) (vars : gmap string Value) : Interp :=
  {| mainThread := mainThread s; exiting := exiting s;
     scriptFPS := scriptFPS s; events := events s;
     currRunning := currRunning s; variables := vars |}.

Definition set_exiting (s : Interp) (b : bool) : Interp :=
  {| mainThread := mainThread s; exiting := b;
     scriptFPS := scriptFPS s; events := events s;
     currRunning := currRunning s; variables := variables s |}.

(** *** [loadScript] *)

(** [addEvent]: [self.events.append(event)] *)
Definition addEvent (s : Interp) (event : Event World) : Interp :=
  set_events s (events s ++ [event]).

(** [if error not in errors: errors[error] = []] and then
    [errors[error].append(tag)] *)
Definition recordError (errors : gmap string (list string))
           (error tag : string) : gmap string (list string) :=
  let errors :=
    match errors !! error with
    | None => <[error := []]> errors
    | Some _ => errors
    end in
  <[error := default [] (errors !! error) ++ [tag]]> errors.

(** [for error in obj.errors: ...] *)
Definition recordErrors (objErrors : list string) (tag : string)
           (errors : gmap string (list string)) : gmap string (list string) :=
  foldl (fun acc error => recordError acc error tag) errors objErrors.

(** The inner loop over [eventSave['commandList']].  The flag is
    [false] when a [getattr(Commands, ...)] raised; the commands
    attached before that stay attached. *)
Fixpoint loadCommands (env : Environment) (saves : list (CommandSave Params))
         (event : Event World) (errors : gmap string (list string))
  : Event World * gmap string (list string) * bool :=
  match saves with
  | [] => (event, errors, true)
  | commandSave :: rest =>
      match Commands_getattr (cs_typeLogic commandSave) with
      | None => (event, errors, false)
      | Some commandType =>
          let command := commandType env (cs_parameters commandSave) in
          let event := addCommand event command in
          let errors :=
            recordErrors (cmdErrors command) (cs_typeLogic commandSave) errors in
          loadCommands env rest event errors
      end
  end.

(** The outer loop over the script.  The event object is appended to
    [self.events] before its commands are attached to it, so it is
    in the list with whatever it got even when a later lookup
    raises. *)
Fixpoint loadEvents (env : Environment) (script : list (EventSave Params))
         (s : Interp) (errors : gmap string (list string))
  : Interp * Result (gmap string (list string)) :=
  match script with
  | [] => (s, Return errors)
  | eventSave :: rest =>
      match Events_getattr (es_typeLogic eventSave) with
      | None => (s, Raise)
      | Some eventType =>
          let event := eventType env (es_parameters eventSave) in
          let errors :=
            recordErrors (evErrors event) (es_typeLogic eventSave) errors in
          let '(event, errors, ok) :=
            loadCommands env (es_commandList eventSave) event errors in
          let s := addEvent s event in
          if ok then loadEvents env rest s errors else (s, Raise)
      end
  end.

Definition loadScript (s : Interp) (script : list (EventSave Params))
           (env : Environment)
  : Interp * Result (gmap string (list string)) :=
  loadEvents env script s ∅.

(** *** [startThread], [endThread] and the status queries *)

Definition startThread (s : Interp) (robot vision : Value)
  : Interp * list HandleCall :=
  match mainThread s with
  | None =>
      ({| mainThread := Some ProgramThread; exiting := false;
          scriptFPS := scriptFPS s; events := events s;
          currRunning := RunDict ∅; variables := variables s |},
       [VisionSetExiting false; RobotSetExiting false;
        RobotSetActiveServosAll; RobotSetSpeed 10])
  | Some _ => (s, [])
  end.

Definition safeList : list string :=
  ["math"; "acos"; "asin"; "atan"; "atan2"; "ceil"; "cos"; "cosh"; "degrees";
   "e"; "exp"; "fabs"; "floor"; "fmod"; "frexp"; "hypot"; "ldexp"; "log";
   "log10"; "modf"; "pi"; "pow"; "radians"; "sin"; "sinh"; "sqrt"; "tan";
   "tanh"].

(** [locals()] inside the list comprehension of [endThread], while
    its variable is [k]: the comprehension's own scope, which holds
    its iterator and [k].  (From Python 3.12 on the names of
    [endThread] itself, [self], [robot], [vision] and [safeList], show
    there too.) *)
Definition comprehensionLocals (k : string) : gmap string Value :=
  {[ ".0" := VObject "list_iterator"; "k" := VStr k ]}.

(** [dict(pairs)]: later pairs win. *)
Definition dict (pairs : list (string * Value)) : gmap string Value :=
  foldl (fun d kv => <[kv.1 := kv.2]> d) ∅ pairs.

(** The store [endThread] rebuilds. *)
Definition resetVariables (robot vision : Value) : gmap string Value :=
  let vars :=
    dict (map (fun k =>
                 (k, default VNone (comprehensionLocals k !! k)))
              safeList) in
  let vars := <["abs" := VBuiltin "abs"]> vars in
  let vars := <["robot" := robot]> vars in
  <["vision" := vision]> vars.

(** [aliveAfterJoin] is what [self.mainThread.is_alive()] answers
    after [join(3000)].  The third component is the returned value;
    [None] is Python's [None] of a function that falls off its end. *)
Definition endThread (s : Interp) (robot vision : Value)
           (aliveAfterJoin : bool)
  : Interp * list HandleCall * option bool :=
  let s := set_exiting s true in
  match mainThread s with
  | Some _ =>
      let calls := [VisionSetExiting true; RobotSetExiting true] in
      if aliveAfterJoin then (s, calls, Some false)
      else
        let calls :=
          calls ++ [VisionSetExiting false; RobotSetExiting false;
                    VisionEndAllTrackers] in
        ({| mainThread := None; exiting := exiting s;
            scriptFPS := scriptFPS s; events := [];
            currRunning := currRunning s;
            variables := resetVariables robot vision |},
         calls, Some true)
  | None => (s, [], None)
  end.

Definition isRunning (s : Interp) : bool :=
  negb (exiting s) || bool_decide (mainThread s <> None).

Definition isExiting (s : Interp) : bool := exiting s.

Definition getStatus (s : Interp) : Status :=
  if isExiting s then StatusFalse
  else StatusRunning (currRunning s).

(** *** The variable store *)

Definition evaluateExpression (s : Interp) (expression : string)
  : Value * bool :=
  let answer := VNone in
  match py_eval expression (variables s) with
  | Raised => (VNone, false)
  | Returned answer =>
      if isNone answer then (VNone, false) else (answer, true)
  end.

Definition setVariable (s : Interp) (name expression : string) : Interp :=
  let s :=
    match variables s !! name with
    | None => set_variables s (<[name := VInt 0]> (variables s))
    | Some _ => s
    end in
  let '(newValue, success) := evaluateExpression s expression in
  set_variables s (<[name := newValue]> (variables s)).

Definition getVariable (s : Interp) (name : string) : Value * bool :=
  match variables s !! name with
  | None => (VInt 0, false)
  | Some v => (v, true)
  end.

(** [exec(script)] sees a snapshot of the local names; [answer] is
    read back from the function's own variable, which nothing has
    assigned since [answer = None]. *)
Definition evaluateScript (s : Interp) (script : string) (env : Environment)
  : Value * bool :=
  let answer := VNone in
  let robot := getRobot env in
  let vision := getVision env in
  let snapshot : gmap string Value :=
    {[ "self" := VObject "Interpreter"; "script" := VStr script;
       "env" := VObject "Environment"; "answer" := answer;
       "robot" := robot; "vision" := vision ]} in
  match py_exec script snapshot with
  | ExecRaised => (VNone, false)
  | Completed _ =>
      if isNone answer then (VNone, false) else (answer, true)
  end.

End Interpreter.

(** ** Sample commands, events and registries

    Small concrete objects on which the statements below are run. *)

(** A command of class [t] whose [run()] always yields [o] and touches
    nothing. *)
Definition constCommand {World : Type} (t : CommandType) (o : Outcome)
  : Command World :=
  {| cmdType := t; run := fun w => (o, w); cmdErrors := [] |}.

(** A command that failed some checks when it was built. *)
Definition faultyCommand {World : Type} (t : CommandType) (errs : list string)
  : Command World :=
  {| cmdType := t; run := fun w => (Continue, w); cmdErrors := errs |}.

Definition emptyEvent {World : Type} (class : string) (errs : list string)
  : Event World :=
  {| eventClass := class; commandList := []; evErrors := errs;
     isActive := fun _ => true |}.

Module Sample.

(** Two event classes and three command classes. *)
Definition Events_getattr (tag : string)
  : option (Environment -> unit -> Event unit) :=
  if String.eqb tag "InitEvent" then Some (fun _ _ => emptyEvent "InitEvent" [])
  else if String.eqb tag "TipEvent"
       then Some (fun _ _ => emptyEvent "TipEvent" ["Robot"])
  else None.

Definition Commands_getattr (tag : string)
  : option (Environment -> unit -> Command unit) :=
  if String.eqb tag "MoveXYZCommand"
  then Some (fun _ _ => faultyCommand (OtherCommand "MoveXYZCommand") ["Robot"])
  else if String.eqb tag "WaitCommand"
       then Some (fun _ _ => constCommand (OtherCommand "WaitCommand") Continue)
  else if String.eqb tag "StartBlockCommand"
       then Some (fun _ _ => constCommand StartBlockCommand Continue)
  else None.

Definition env : Environment :=
  {| getRobot := VObject "robot"; getVision := VObject "vision" |}.

Definition tipScript : list (EventSave unit) :=
  [ {| es_typeLogic := "TipEvent"; es_parameters := tt;
       es_commandList :=
         [ {| cs_typeLogic := "MoveXYZCommand"; cs_parameters := tt |};
           {| cs_typeLogic := "WaitCommand"; cs_parameters := tt |} ] |};
    {| es_typeLogic := "InitEvent"; es_parameters := tt;
       es_commandList := [] |} ].

(** A script whose second command names a class that is not there. *)
Definition typoScript : list (EventSave unit) :=
  [ {| es_typeLogic := "InitEvent"; es_parameters := tt;
       es_commandList :=
         [ {| cs_typeLogic := "WaitCommand"; cs_parameters := tt |};
           {| cs_typeLogic := "MoveXZYCommand"; cs_parameters := tt |} ] |} ].

(** Commands that leave their name in a log when they run. *)
Definition logCommand (t : CommandType) (name : string) (o : Outcome)
  : Command (list string) :=
  {| cmdType := t; run := fun w => (o, w ++ [name]); cmdErrors := [] |}.

Definition ifTrue := logCommand (OtherCommand "TestVariableCommand") "If" Continue.
Definition ifFalse := logCommand (OtherCommand "TestVariableCommand") "If" Skip.
Definition startBlock := logCommand StartBlockCommand "{" Continue.
Definition endBlock := logCommand EndBlockCommand "}" Continue.
Definition elseCommand := logCommand ElseCommand "Else" Continue.
Definition cmdA := logCommand (OtherCommand "MoveXYZCommand") "A" Continue.
Definition cmdB := logCommand (OtherCommand "WaitCommand") "B" Skip.
Definition cmdC := logCommand (OtherCommand "GripCommand") "C" Continue.
Definition cmdX := logCommand (OtherCommand "MoveXYZCommand") "X" Continue.
Definition cmdY := logCommand (OtherCommand "WaitCommand") "Y" Skip.
Definition cmdZ := logCommand (OtherCommand "EndEventCommand") "Z" Exit.

(** The exit flag is never raised. *)
Definition calm (w : list string) : bool := false.

End Sample.

(** ** What a script stands for

    The reading of a script that [loadScript] is compared with: which
    scripts name only classes that exist, which event each descriptor
    describes, and which errors its objects report. *)
Section ScriptReading.

Context {World Params : Type}.

Variable Events_getattr :
  string -> option (Environment -> Params -> Event World).
Variable Commands_getattr :
  string -> option (Environment -> Params -> Command World).

Definition commandResolves (commandSave : CommandSave Params) : bool :=
  match Commands_getattr (cs_typeLogic commandSave) with
  | Some _ => true
  | None => false
  end.

Definition eventResolves (eventSave : EventSave Params) : bool :=
  match Events_getattr (es_typeLogic eventSave) with
  | Some _ => forallb commandResolves (es_commandList eventSave)
  | None => false
  end.

(** Every [typeLogic] of the script names a class. *)
Definition resolves (script : list (EventSave Params)) : bool :=
  forallb eventResolves script.

(** The command objects of a list of descriptors, in order. *)
Definition builtCommands (env : Environment) (saves : list (CommandSave Params))
  : list (Command World) :=
  omap (fun commandSave =>
          match Commands_getattr (cs_typeLogic commandSave) with
          | Some commandType => Some (commandType env (cs_parameters commandSave))
          | None => None
          end) saves.

(** An event with further commands attached after its own. *)
Definition withCommands (event : Event World) (commands : list (Command World))
  : Event World :=
  {| eventClass  := eventClass event;
     commandList := commandList event ++ commands;
     evErrors    := evErrors event;
     isActive    := isActive event |}.

(** The event object of a descriptor, its commands attached. *)
Definition builtEvent (env : Environment) (eventSave : EventSave Params)
  : option (Event World) :=
  match Events_getattr (es_typeLogic eventSave) with
  | Some eventType =>
      Some (withCommands (eventType env (es_parameters eventSave))
                         (builtCommands env (es_commandList eventSave)))
  | None => None
  end.

(** The errors of the objects of a script, each paired with the
    [typeLogic] of the descriptor it came from, in the order of the
    script: an event's own errors, then those of its commands. *)
Definition commandReports (env : Environment) (saves : list (CommandSave Params))
  : list (string * string) :=
  flat_map (fun commandSave =>
              match Commands_getattr (cs_typeLogic commandSave) with
              | Some commandType =>
                  map (fun error => (error, cs_typeLogic commandSave))
                      (cmdErrors (commandType env (cs_parameters commandSave)))
              | None => []
              end) saves.

Definition eventReports (env : Environment) (eventSave : EventSave Params)
  : list (string * string) :=
  match Events_getattr (es_typeLogic eventSave) with
  | Some eventType =>
      map (fun error => (error, es_typeLogic eventSave))
          (evErrors (eventType env (es_parameters eventSave)))
      ++ commandReports env (es_commandList eventSave)
  | None => []
  end.

Definition reports (env : Environment) (script : list (EventSave Params))
  : list (string * string) :=
  flat_map (eventReports env) script.

(** The error map after a list of reports has been entered into it,
    one by one. *)
Definition recordAll (errors : gmap string (list string))
           (reported : list (string * string)) : gmap string (list string) :=
  foldl (fun acc p => recordError acc p.1 p.2) errors reported.

(** The tags reported under one kind of error. *)
Definition tagsOf (kind : string) (reported : list (string * string))
  : list string :=
  map snd (filter (fun p => p.1 = kind) reported).

End ScriptReading.

(** ** Well-nested command lists *)

(** [closes depth commands]: read from [depth] open blocks, the
    sentinels of [commands] never close a block that is not open and
    leave none open at the end. *)
Fixpoint closes {World : Type} (depth : nat) (commands : list (Command World))
  : bool :=
  match commands with
  | [] => Nat.eqb depth 0
  | c :: rest =>
      if isStartBlock (cmdType c) then closes (S depth) rest
      else if isEndBlock (cmdType c) then
             match depth with
             | O => false
             | S depth' => closes depth' rest
             end
      else closes depth rest
  end.

(** The next command, if there is one, does not open a block. *)
Definition noBlockAhead {World : Type} (commands : list (Command World)) : bool :=
  match commands with
  | [] => true
  | c :: _ => negb (isStartBlock (cmdType c))
  end.

(** ** The worker thread *)

(** How a run of the worker's code ends: normally, with the
    [ValueError] of [list.index], or cut off by the fuel of the
    model. *)
Inductive Run (A : Type) :=
| Ended (a : A)
| ValueError
| NoFuel.
Arguments Ended {A} a.
Arguments ValueError {A}.
Arguments NoFuel {A}.

Section Scheduler.

Context {World : Type}.

(** [self.isExiting()] as the worker sees it. *)
Variable exitFlag : World -> bool.

(** [a == b] on two event objects. *)
Variable sameEvent : Event World -> Event World -> bool.

(** [timer.wait()] followed by [timer.ready()], of the [FpsTimer]. *)
Variable timerStep : World -> bool * World.

(** [self.events.index(event)]; [None] is its [ValueError]. *)
Fixpoint eventsIndex (events : list (Event World)) (event : Event World)
  : option nat :=
  match events with
  | [] => None
  | e :: rest =>
      if sameEvent e event then Some 0
      else match eventsIndex rest event with
           | Some i => Some (S i)
           | None => None
           end
  end.

(** [__interpretEvent] with the bookkeeping around its loop: the
    event's index is looked up, its entry of [currRunning] starts
    empty and ends as the list of the positions run. *)
Definition interpretEventIn (events : list (Event World)) (event : Event World)
           (overrideKillApp : bool) (currRunning : gmap nat (list nat))
           (w : World) : Run (gmap nat (list nat) * World) :=
  match eventsIndex events event with
  | None => ValueError
  | Some eventIndex =>
      match interpretEvent exitFlag (commandList event) overrideKillApp w with
      | Some (ran, w') => Ended (<[eventIndex := ran]> currRunning, w')
      | None => NoFuel
      end
  end.

(** [for index, event in enumerate(self.events)] of one tick. *)
Fixpoint tick_loop (events rest : list (Event World))
         (currRunning : gmap nat (list nat)) (w : World)
  : Run (gmap nat (list nat) * World) :=
  match rest with
  | [] => Ended (currRunning, w)
  | event :: rest' =>
      if exitFlag w then Ended (currRunning, w)
      else if negb (isActive event w) then tick_loop events rest' currRunning w
      else match interpretEventIn events event false currRunning w with
           | Ended (currRunning', w') => tick_loop events rest' currRunning' w'
           | ValueError => ValueError
           | NoFuel => NoFuel
           end
  end.

(** One tick: [self.currRunning = {}] and the loop over the events. *)
Definition tick (events : list (Event World)) (w : World)
  : Run (gmap nat (list nat) * World) :=
  tick_loop events events ∅ w.

(** [type(event) == Events.DestroyEvent] *)
Definition isDestroyEvent (event : Event World) : bool :=
  String.eqb (eventClass event) "DestroyEvent".

(** [while not self.__exiting]; each turn of the loop costs one unit
    of fuel. *)
Fixpoint programThread_loop (fuel : nat) (events : list (Event World))
         (currRunning : gmap nat (list nat)) (w : World)
  : Run (gmap nat (list nat) * World) :=
  match fuel with
  | O => NoFuel
  | S fuel' =>
      if exitFlag w then Ended (currRunning, w)
      else
        let '(ready, w) := timerStep w in
        if negb ready then programThread_loop fuel' events currRunning w
        else match tick events w with
             | Ended (currRunning', w') =>
                 programThread_loop fuel' events currRunning' w'
             | ValueError => ValueError
             | NoFuel => NoFuel
             end
  end.

(** [__programThread]: the loop, then the first [DestroyEvent] of the
    list, if there is one, with the exit flag overridden. *)
Definition programThread (fuel : nat) (events : list (Event World))
           (currRunning : gmap nat (list nat)) (w : World)
  : Run (gmap nat (list nat) * World) :=
  match programThread_loop fuel events currRunning w with
  | Ended (currRunning, w) =>
      match filter (fun event => isDestroyEvent event = true) events with
      | [] => Ended (currRunning, w)
      | destroyEvent :: _ =>
          interpretEventIn events destroyEvent true currRunning w
      end
  | ValueError => ValueError
  | NoFuel => NoFuel
  end.

End Scheduler.

(** Every entry of a status map belongs to a position of the event
    list and is strictly increasing. *)
Definition statusOk {World : Type} (events : list (Event World))
           (currRunning : gmap nat (list nat)) : Prop :=
  forall i ran, currRunning !! i = Some ran ->
                i < length events /\ StronglySorted lt ran.

(** What every history of an interpreter keeps true. *)
Definition lifecycleInv {World : Type} (s : Interpreter World) : Prop :=
  (exiting s = false -> mainThread s <> None)
  /\ (currRunning s = EmptyList -> mainThread s = None /\ exiting s = true)
  /\ scriptFPS s = 50%Z.

(** ** Histories of an interpreter *)
Section Histories.

Context {World Params : Type}.

Variable Events_getattr :
  string -> option (Environment -> Params -> Event World).
Variable Commands_getattr :
  string -> option (Environment -> Params -> Command World).
Variable py_eval : string -> gmap string Value -> EvalOutcome.

(** What can happen to an interpreter: the calls of its users, and
    the worker rewriting [currRunning]. *)
Inductive Action :=
| ALoadScript (script : list (EventSave Params)) (env : Environment)
| AStartThread (robot vision : Value)
| AEndThread (robot vision : Value) (aliveAfterJoin : bool)
| ASetVariable (name expression : string)
| AWorker (d : gmap nat (list nat)).

(** The worker exists from [startThread] until a join succeeds. *)
Definition act (s : Interpreter World) (a : Action) : Interpreter World :=
  match a with
  | ALoadScript script env =>
      (loadScript Events_getattr Commands_getattr s script env).1
  | AStartThread robot vision => (startThread s robot vision).1
  | AEndThread robot vision aliveAfterJoin =>
      (endThread s robot vision aliveAfterJoin).1.1
  | ASetVariable name expression => setVariable py_eval s name expression
  | AWorker d =>
      match mainThread s with
      | Some _ =>
          {| mainThread := mainThread s; exiting := exiting s;
             scriptFPS := scriptFPS s; events := events s;
             currRunning := RunDict d; variables := variables s |}
      | None => s
      end
  end.

(** The calls an action makes on the two handles. *)
Definition callsOf (s : Interpreter World) (a : Action) : list HandleCall :=
  match a with
  | AStartThread robot vision => (startThread s robot vision).2
  | AEndThread robot vision aliveAfterJoin =>
      (endThread s robot vision aliveAfterJoin).1.2
  | _ => []
  end.

(** A history, from the oldest action on: the state it ends in and
    the calls it made. *)
Definition history (s : Interpreter World) (actions : list Action)
  : Interpreter World * list HandleCall :=
  foldl (fun st a => (act st.1 a, st.2 ++ callsOf st.1 a)) (s, []) actions.

(** The argument of the last [setExiting] in a list of calls to the
    robot. *)
Definition lastRobotExiting (calls : list HandleCall) : option bool :=
  foldl (fun acc c => match c with RobotSetExiting b => Some b | _ => acc end)
        None calls.

Definition lastVisionExiting (calls : list HandleCall) : option bool :=
  foldl (fun acc c => match c with VisionSetExiting b => Some b | _ => acc end)
        None calls.

End Histories.

(** The names the rebuilt store binds. *)
Definition reservedNames : list string := safeList ++ ["abs"; "robot"; "vision"].

(** Further sample objects. *)
Module Demo.

Definition plain (name : string) (o : Outcome) : Command (list string) :=
  Sample.logCommand (OtherCommand name) name o.

Definition cleanup : Event (list string) :=
  {| eventClass := "DestroyEvent";
     commandList := [plain "Detach" Continue; plain "Home" Continue];
     evErrors := []; isActive := fun _ => false |}.

Definition work : Event (list string) :=
  {| eventClass := "InitEvent";
     commandList := [plain "Move" Continue];
     evErrors := []; isActive := fun _ => true |}.

(** Events are told apart by their class. *)
Definition sameClass (a b : Event (list string)) : bool :=
  String.eqb (eventClass a) (eventClass b).

(** The flag is up from the start. *)
Definition stopped (w : list string) : bool := true.

(** The flag goes up once something has run. *)
Definition stopAfterFirst (w : list string) : bool :=
  negb (Nat.eqb (length w) 0).

Definition alwaysReady (w : list string) : bool * list string := (true, w).

End Demo.

(** * Properties *)

(** ** The block-skip engine *)
Section ExecutorFacts.

Context {World : Type}.
Variable exitFlag : World -> bool.

Implicit Types (commandList : list (Command World)) (w : World).

Lemma getNextIndex_loop_ge (rest : list (Command World)) i len nextIndent index :
  index < i -> index <= getNextIndex_loop rest i len nextIndent index.
Proof.
  revert i nextIndent.
  induction rest as [|c rest IH]; intros i nextIndent Hi; simpl; [lia|].
  destruct (isStartBlock (cmdType c));
    repeat (case_match; try lia); apply IH; lia.
Qed.

(** The scan never moves backwards. *)
Lemma getNextIndex_ge index commandList :
  index <= getNextIndex index commandList.
Proof. unfold getNextIndex. apply getNextIndex_loop_ge. lia. Qed.

(** Whatever the command returned, the next cursor is further on. *)
Lemma nextCursor_gt commandList index evaluation index' :
  nextCursor commandList index evaluation = Some index' -> index < index'.
Proof.
  unfold nextCursor. intros H.
  pose proof (getNextIndex_ge index commandList).
  pose proof (getNextIndex_ge (index + 1) commandList).
  repeat case_match; simplify_eq; lia.
Qed.

Lemma StronglySorted_lt_NoDup (l : list nat) : StronglySorted lt l -> NoDup l.
Proof.
  induction 1 as [|x l Hs IH Hall]; constructor; [|done].
  intros Hin. rewrite Forall_forall in Hall. specialize (Hall _ Hin). lia.
Qed.

(** From any cursor the loop comes to an end once the fuel exceeds the
    number of positions left, and what it appends to the record is
    increasing and within the list. *)
Lemma interpretEvent_loop_total commandList overrideKillApp n :
  forall index w,
    length commandList - index <= n ->
    exists ran' w',
      (forall fuel ran,
          n < fuel ->
          interpretEvent_loop exitFlag fuel commandList overrideKillApp index ran w
          = Some (ran ++ ran', w'))
      /\ StronglySorted lt ran'
      /\ Forall (fun j => index <= j < length commandList) ran'.
Proof.
  induction n as [n IH] using lt_wf_ind. intros index w Hn.
  destruct (commandList !! index) as [command|] eqn:Hc.
  2:{ exists [], w. split_and!; [|constructor|constructor].
      intros [|fuel] ran Hf; [lia|]. simpl. rewrite Hc, app_nil_r. done. }
  pose proof (lookup_lt_Some _ _ _ Hc) as Hlt.
  destruct (exitFlag w && negb overrideKillApp) eqn:Hex.
  { exists [], w. split_and!; [|constructor|constructor].
    intros [|fuel] ran Hf; [lia|]. simpl. rewrite Hc, Hex, app_nil_r. done. }
  destruct (run command w) as [evaluation w1] eqn:Hrun.
  destruct (nextCursor commandList index evaluation) as [index'|] eqn:Hnext.
  2:{ exists [index], w1. split_and!.
      - intros [|fuel] ran Hf; [lia|]. simpl. rewrite Hc, Hex, Hrun, Hnext. done.
      - repeat constructor.
      - repeat constructor; lia. }
  pose proof (nextCursor_gt _ _ _ _ Hnext) as Hgt.
  destruct (IH (n - 1) ltac:(lia) index' w1 ltac:(lia))
    as (ran' & w' & Hloop & Hsorted & Hall).
  exists (index :: ran'), w'. split_and!.
  - intros [|fuel] ran Hf; [lia|]. simpl. rewrite Hc, Hex, Hrun, Hnext.
    rewrite (Hloop fuel (ran ++ [index])) by lia.
    by rewrite <- app_assoc.
  - constructor; [done|]. eapply Forall_impl; [exact Hall|]. simpl. lia.
  - constructor; [lia|]. eapply Forall_impl; [exact Hall|]. simpl. lia.
Qed.

(** C9. Each turn of the loop of [__interpretEvent] moves the cursor
    strictly forward, whether by the skip scan plus one or by the plain
    advance; so one pass over an event comes to an end, with any fuel
    above the length of the command list and with the same result, and
    the command indices it records are strictly increasing, without
    repetition, and all within the list. *)
Theorem interpretEvent_cursor_increases commandList overrideKillApp w :
  (forall index, index < getNextIndex index commandList + 1)
  /\ (forall index evaluation index',
        nextCursor commandList index evaluation = Some index' -> index < index')
  /\ exists ran w',
      interpretEvent exitFlag commandList overrideKillApp w = Some (ran, w')
      /\ (forall fuel,
            length commandList < fuel ->
            interpretEvent_loop exitFlag fuel commandList overrideKillApp 0 [] w
            = Some (ran, w'))
      /\ StronglySorted lt ran
      /\ NoDup ran
      /\ Forall (fun j => j < length commandList) ran.
Proof.
  split; [|split].
  - intros index. pose proof (getNextIndex_ge index commandList). lia.
  - apply nextCursor_gt.
  - destruct (interpretEvent_loop_total commandList overrideKillApp
                (length commandList) 0 w ltac:(lia))
      as (ran & w' & Hloop & Hsorted & Hall).
    exists ran, w'. split_and!.
    + unfold interpretEvent. apply (Hloop _ []). lia.
    + intros fuel Hf. apply (Hloop _ []). lia.
    + done.
    + by apply StronglySorted_lt_NoDup.
    + eapply Forall_impl; [exact Hall|]. simpl. lia.
Qed.

(** One turn of the loop, when the cursor is in range and the pass is
    not cut short by the exit flag. *)
Lemma interpretEvent_loop_step fuel commandList overrideKillApp index ran w command :
  commandList !! index = Some command ->
  exitFlag w && negb overrideKillApp = false ->
  interpretEvent_loop exitFlag (S fuel) commandList overrideKillApp index ran w
  = match nextCursor commandList index (run command w).1 with
    | None => Some (ran ++ [index], (run command w).2)
    | Some index' =>
        interpretEvent_loop exitFlag fuel commandList overrideKillApp index'
                            (ran ++ [index]) (run command w).2
    end.
Proof.
  intros Hc Hex. simpl. rewrite Hc, Hex. by destruct (run command w).
Qed.

Lemma interpretEvent_loop_past_end fuel commandList overrideKillApp index ran w :
  commandList !! index = None ->
  interpretEvent_loop exitFlag (S fuel) commandList overrideKillApp index ran w
  = Some (ran, w).
Proof. intros Hc. simpl. by rewrite Hc. Qed.

(** When the cursor is inside the list, so is what the scan returns:
    a scan that reaches the end with the block still open stops on
    the last index. *)
Lemma getNextIndex_loop_lt (rest : list (Command World)) i len nextIndent index :
  i + length rest = len -> index < i -> index < len ->
  getNextIndex_loop rest i len nextIndent index < len.
Proof.
  revert i nextIndent.
  induction rest as [|c rest IH]; intros i nextIndent Hlen Hi Hindex; simpl;
    [done|].
  simpl in Hlen.
  destruct (isStartBlock (cmdType c));
    repeat (case_match; try lia); apply IH; lia.
Qed.

Lemma getNextIndex_lt index commandList :
  index < length commandList ->
  getNextIndex index commandList < length commandList.
Proof.
  intros Hlt. unfold getNextIndex. apply getNextIndex_loop_lt; [|lia|done].
  rewrite length_drop. lia.
Qed.

(** C1. In [[If; A; B]] with [A] and [B] no block sentinels, running
    an [If] that returns [False] moves the cursor by one, onto [A]; in
    [[If; StartBlock; A; B; EndBlock; C]], with [A], [B] and [C] no
    block sentinels, it moves the cursor onto [C].  In both the scan
    result plus one is the next cursor, and the loop goes on from
    there with position 0 recorded. *)
Theorem skip_scan_lands (cIf A B C startBlock endBlock : Command World)
        overrideKillApp fuel ran w :
  let flat := [cIf; A; B] in
  let block := [cIf; startBlock; A; B; endBlock; C] in
  cmdType startBlock = StartBlockCommand ->
  cmdType endBlock = EndBlockCommand ->
  isBlockSentinel (cmdType A) = false ->
  isBlockSentinel (cmdType B) = false ->
  isBlockSentinel (cmdType C) = false ->
  (run cIf w).1 = Skip ->
  exitFlag w && negb overrideKillApp = false ->
  (getNextIndex 0 flat = 0
   /\ nextCursor flat 0 Skip = Some 1
   /\ flat !! 1 = Some A
   /\ interpretEvent_loop exitFlag (S fuel) flat overrideKillApp 0 ran w
      = interpretEvent_loop exitFlag fuel flat overrideKillApp 1 (ran ++ [0])
                            (run cIf w).2)
  /\ (getNextIndex 0 block = 4
      /\ nextCursor block 0 Skip = Some 5
      /\ block !! 5 = Some C
      /\ interpretEvent_loop exitFlag (S fuel) block overrideKillApp 0 ran w
         = interpretEvent_loop exitFlag fuel block overrideKillApp 5 (ran ++ [0])
                               (run cIf w).2).
Proof.
  intros flat block Hs He HA HB HC Hskip Hcalm.
  unfold isBlockSentinel in *.
  apply orb_false_iff in HA as [HAs HAe].
  apply orb_false_iff in HB as [HBs HBe].
  apply orb_false_iff in HC as [HCs HCe].
  assert (Hflat : nextCursor flat 0 Skip = Some 1).
  { unfold nextCursor, getNextIndex. simpl. by rewrite HAs. }
  assert (Hblock : nextCursor block 0 Skip = Some 5).
  { unfold nextCursor, getNextIndex. simpl.
    rewrite Hs, He, HAs, HAe, HBs, HBe, HCs. done. }
  split; split_and!; try done.
  - unfold getNextIndex. simpl. by rewrite HAs.
  - rewrite (interpretEvent_loop_step fuel flat _ 0 ran w cIf) by done.
    by rewrite Hskip, Hflat.
  - unfold getNextIndex. simpl. by rewrite Hs, He, HAs, HAe, HBs, HBe, HCs.
  - rewrite (interpretEvent_loop_step fuel block _ 0 ran w cIf) by done.
    by rewrite Hskip, Hblock.
Qed.

(** C2. In [[If; StartBlock; X; EndBlock; Else; StartBlock; Y; EndBlock; Z]],
    where the sentinels return nothing special when run, [X], [Y]
    and [Z] are ordinary commands, neither [X] nor [Y] asks to leave
    the event and the pass is not cancelled: when [If] holds, the pass
    runs positions 0, 1, 2, 3 and 8, so [X] (2) and [Z] (8) run and [Y]
    (6) does not; when [If] returns [False], it runs positions 0, 4, 5,
    6, 7 and 8, so [Y] and [Z] run and [X] does not. *)
Theorem else_suppression
        (cIf startX X endX cElse startY Y endY Z : Command World)
        overrideKillApp w :
  let commandList := [cIf; startX; X; endX; cElse; startY; Y; endY; Z] in
  cmdType startX = StartBlockCommand ->
  cmdType endX = EndBlockCommand ->
  cmdType cElse = ElseCommand ->
  cmdType startY = StartBlockCommand ->
  cmdType endY = EndBlockCommand ->
  isSentinel (cmdType X) = false ->
  isSentinel (cmdType Y) = false ->
  isSentinel (cmdType Z) = false ->
  (forall c w0, c ∈ [startX; endX; cElse; startY; endY] -> (run c w0).1 = Continue) ->
  (forall w0, (run X w0).1 <> Exit) ->
  (forall w0, (run Y w0).1 <> Exit) ->
  (forall w0, exitFlag w0 && negb overrideKillApp = false) ->
  ((run cIf w).1 = Continue ->
   exists w', interpretEvent exitFlag commandList overrideKillApp w
              = Some ([0; 1; 2; 3; 8], w'))
  /\ ((run cIf w).1 = Skip ->
      exists w', interpretEvent exitFlag commandList overrideKillApp w
                 = Some ([0; 4; 5; 6; 7; 8], w')).
Proof.
  intros commandList HsX HeX HEl HsY HeY HX HY HZ Hsent HXexit HYexit Hcalm.
  unfold isSentinel in HX, HY, HZ.
  apply orb_false_iff in HX as [HX HXl]. apply orb_false_iff in HX as [HXs HXe].
  apply orb_false_iff in HY as [HY HYl]. apply orb_false_iff in HY as [HYs HYe].
  apply orb_false_iff in HZ as [HZ HZl]. apply orb_false_iff in HZ as [HZs HZe].
  assert (Hcur : forall index evaluation,
             index < 9 ->
             nextCursor commandList index evaluation
             = match evaluation with
               | Exit => None
               | Skip => Some (match index with 0 => 4 | 4 => 8 | i => S i end)
               | Continue => Some (match index with 3 => 8 | i => S i end)
               end).
  { intros index evaluation Hi.
    assert (Hcases : index = 0 \/ index = 1 \/ index = 2 \/ index = 3
                     \/ index = 4 \/ index = 5 \/ index = 6 \/ index = 7
                     \/ index = 8) by lia.
    destruct_or! Hcases; subst index; destruct evaluation;
      unfold nextCursor, getNextIndex; simpl;
      rewrite ?HsX, ?HeX, ?HEl, ?HsY, ?HeY, ?HXs, ?HXe, ?HXl,
        ?HYs, ?HYe, ?HYl, ?HZs, ?HZe, ?HZl; simpl;
      rewrite ?HsX, ?HeX, ?HEl, ?HsY, ?HeY, ?HXs, ?HXe, ?HXl,
        ?HYs, ?HYe, ?HYl, ?HZs, ?HZe, ?HZl; done. }
  assert (Hstep : forall fuel index ran w0 command evaluation,
             commandList !! index = Some command ->
             (run command w0).1 = evaluation ->
             interpretEvent_loop exitFlag (S fuel) commandList overrideKillApp
                                 index ran w0
             = match nextCursor commandList index evaluation with
               | None => Some (ran ++ [index], (run command w0).2)
               | Some index' =>
                   interpretEvent_loop exitFlag fuel commandList overrideKillApp
                                       index' (ran ++ [index]) (run command w0).2
               end).
  { intros fuel index ran w0 command evaluation Hc <-.
    by apply interpretEvent_loop_step. }
  assert (Hlast : forall fuel ran w0,
             exists w', interpretEvent_loop exitFlag (S (S fuel)) commandList
                          overrideKillApp 8 ran w0 = Some (ran ++ [8], w')).
  { intros fuel ran w0.
    rewrite (Hstep _ 8 _ _ Z (run Z w0).1) by done.
    rewrite Hcur by lia.
    destruct (run Z w0).1; eauto. }
  assert (Hsentinel : forall c, c ∈ [startX; endX; cElse; startY; endY] ->
                                forall w0, (run c w0).1 = Continue)
    by (intros; by apply Hsent).
  split; intros HIf; unfold interpretEvent; simpl length.
  - rewrite (Hstep _ 0 _ _ cIf Continue), Hcur by (done || lia).
    rewrite (Hstep _ 1 _ _ startX Continue), Hcur
      by (done || lia || (apply Hsentinel; repeat constructor)).
    set (w2 := (run startX _).2).
    rewrite (Hstep _ 2 _ _ X (run X w2).1), Hcur by (done || lia).
    specialize (HXexit w2). destruct (run X w2).1; [| |done].
    all: rewrite (Hstep _ 3 _ _ endX Continue), Hcur
      by (done || lia || (apply Hsentinel; repeat constructor)).
    all: apply Hlast.
  - rewrite (Hstep _ 0 _ _ cIf Skip), Hcur by (done || lia).
    rewrite (Hstep _ 4 _ _ cElse Continue), Hcur
      by (done || lia || (apply Hsentinel; repeat constructor)).
    rewrite (Hstep _ 5 _ _ startY Continue), Hcur
      by (done || lia || (apply Hsentinel; repeat constructor)).
    set (w6 := (run startY _).2).
    rewrite (Hstep _ 6 _ _ Y (run Y w6).1), Hcur by (done || lia).
    specialize (HYexit w6). destruct (run Y w6).1; [| |done].
    all: rewrite (Hstep _ 7 _ _ endY Continue), Hcur
      by (done || lia || (apply Hsentinel; repeat constructor)).
    all: apply Hlast.
Qed.

End ExecutorFacts.

(** The two lists of C1, on sample commands. *)
Lemma skip_scan_lands_witness :
  let flat := [Sample.ifFalse; Sample.cmdA; Sample.cmdB] in
  let block := [Sample.ifFalse; Sample.startBlock; Sample.cmdA;
                Sample.cmdB; Sample.endBlock; Sample.cmdC] in
  (getNextIndex 0 flat = 0
   /\ nextCursor flat 0 Skip = Some 1
   /\ flat !! 1 = Some Sample.cmdA
   /\ interpretEvent_loop Sample.calm 3 flat false 0 [] []
      = interpretEvent_loop Sample.calm 2 flat false 1 ([] ++ [0])
                            (run Sample.ifFalse []).2)
  /\ (getNextIndex 0 block = 4
      /\ nextCursor block 0 Skip = Some 5
      /\ block !! 5 = Some Sample.cmdC
      /\ interpretEvent_loop Sample.calm 3 block false 0 [] []
         = interpretEvent_loop Sample.calm 2 block false 5 ([] ++ [0])
                               (run Sample.ifFalse []).2).
Proof.
  apply (skip_scan_lands Sample.calm Sample.ifFalse Sample.cmdA Sample.cmdB
           Sample.cmdC Sample.startBlock Sample.endBlock false 2 [] []);
    reflexivity.
Defined.

(** An [If] that fails in front of a block that is never closed: the
    scan stops on the last index and the pass ends after the [If]. *)
Example skip_scan_open_block :
  getNextIndex 0 [Sample.ifFalse; Sample.startBlock; Sample.cmdA] = 2
  /\ interpretEvent Sample.calm
       [Sample.ifFalse; Sample.startBlock; Sample.cmdA] false []
     = Some ([0], ["If"]).
Proof. split; reflexivity. Qed.

(** The list of C2 on sample commands, with [If] holding. *)
Lemma else_suppression_witness :
  let commandList :=
    [Sample.ifTrue; Sample.startBlock; Sample.cmdX; Sample.endBlock;
     Sample.elseCommand; Sample.startBlock; Sample.cmdY; Sample.endBlock;
     Sample.cmdZ] in
  ((run Sample.ifTrue []).1 = Continue ->
   exists w', interpretEvent Sample.calm commandList false []
              = Some ([0; 1; 2; 3; 8], w'))
  /\ ((run Sample.ifTrue []).1 = Skip ->
      exists w', interpretEvent Sample.calm commandList false []
                 = Some ([0; 4; 5; 6; 7; 8], w')).
Proof.
  apply (else_suppression Sample.calm Sample.ifTrue Sample.startBlock
           Sample.cmdX Sample.endBlock Sample.elseCommand Sample.startBlock
           Sample.cmdY Sample.endBlock Sample.cmdZ false []);
    try reflexivity.
  - intros c w0 Hc. repeat (apply elem_of_cons in Hc as [->|Hc]; [reflexivity|]).
    by apply elem_of_nil in Hc.
  - intros w0. discriminate.
  - intros w0. discriminate.
Defined.

Example else_suppression_true_run :
  interpretEvent Sample.calm
    [Sample.ifTrue; Sample.startBlock; Sample.cmdX; Sample.endBlock;
     Sample.elseCommand; Sample.startBlock; Sample.cmdY; Sample.endBlock;
     Sample.cmdZ] false []
  = Some ([0; 1; 2; 3; 8], ["If"; "{"; "X"; "}"; "Z"]).
Proof. reflexivity. Qed.

Example else_suppression_false_run :
  interpretEvent Sample.calm
    [Sample.ifFalse; Sample.startBlock; Sample.cmdX; Sample.endBlock;
     Sample.elseCommand; Sample.startBlock; Sample.cmdY; Sample.endBlock;
     Sample.cmdZ] false []
  = Some ([0; 4; 5; 6; 7; 8], ["If"; "Else"; "{"; "Y"; "}"; "Z"]).
Proof. reflexivity. Qed.

(** ** The script loader *)
Section LoaderFacts.

Context {World Params : Type}.
Variable Events_getattr :
  string -> option (Environment -> Params -> Event World).
Variable Commands_getattr :
  string -> option (Environment -> Params -> Command World).

Implicit Types (s : Interpreter World) (event : Event World)
         (errors : gmap string (list string)) (env : Environment).

Lemma recordError_lookup errors error tag kind :
  recordError errors error tag !! kind
  = if decide (kind = error)
    then Some (default [] (errors !! error) ++ [tag])
    else errors !! kind.
Proof.
  unfold recordError.
  destruct (errors !! error) as [l|] eqn:He; case_decide; simplify_map_eq; done.
Qed.

Lemma recordErrors_recordAll objErrors tag errors :
  recordErrors objErrors tag errors
  = recordAll errors (map (fun error => (error, tag)) objErrors).
Proof.
  unfold recordErrors, recordAll. revert errors.
  induction objErrors as [|e l IH]; intros errors; simpl; [done|]. apply IH.
Qed.

Lemma recordAll_app errors r1 r2 :
  recordAll errors (r1 ++ r2) = recordAll (recordAll errors r1) r2.
Proof. unfold recordAll. apply foldl_app. Qed.

(** Under each kind the map holds what it held, followed by the tags
    reported under that kind, in the order of the reports. *)
Lemma recordAll_lookup reported errors kind :
  recordAll errors reported !! kind
  = match tagsOf kind reported with
    | [] => errors !! kind
    | tags => Some (default [] (errors !! kind) ++ tags)
    end.
Proof.
  revert errors. induction reported as [|[e t] rest IH]; intros errors; [done|].
  change (recordAll errors ((e, t) :: rest))
    with (recordAll (recordError errors e t) rest).
  rewrite IH. unfold tagsOf. rewrite filter_cons. simpl.
  rewrite recordError_lookup.
  destruct (decide (e = kind)) as [->|Hne].
  - rewrite decide_True by done. simpl.
    destruct (map snd (filter _ rest)) as [|t' tags]; [done|].
    simpl. by rewrite <- app_assoc.
  - rewrite decide_False by done. done.
Qed.

Lemma withCommands_nil event : withCommands event [] = event.
Proof. destruct event. unfold withCommands. simpl. by rewrite app_nil_r. Qed.

Lemma withCommands_addCommand event command commands :
  withCommands (addCommand event command) commands
  = withCommands event (command :: commands).
Proof. unfold withCommands, addCommand. simpl. by rewrite <- app_assoc. Qed.

Lemma set_events_id s : set_events s (events s) = s.
Proof. by destruct s. Qed.

(** The inner loop on descriptors that all name a class. *)
Lemma loadCommands_resolved env saves event errors :
  forallb (commandResolves Commands_getattr) saves = true ->
  loadCommands Commands_getattr env saves event errors
  = (withCommands event (builtCommands Commands_getattr env saves),
     recordAll errors (commandReports Commands_getattr env saves), true).
Proof.
  revert event errors.
  induction saves as [|commandSave rest IH]; intros event errors Hres; simpl.
  - by rewrite withCommands_nil.
  - simpl in Hres. apply andb_true_iff in Hres as [Hc Hrest].
    unfold commandResolves in Hc.
    destruct (Commands_getattr (cs_typeLogic commandSave)) as [commandType|];
      [|done].
    rewrite IH by done.
    rewrite withCommands_addCommand, recordErrors_recordAll, recordAll_app.
    done.
Qed.

(** The inner loop stops at the first descriptor that names none. *)
Lemma loadCommands_unresolved env saves event errors :
  forallb (commandResolves Commands_getattr) saves = false ->
  (loadCommands Commands_getattr env saves event errors).2 = false.
Proof.
  revert event errors.
  induction saves as [|commandSave rest IH]; intros event errors Hres; simpl.
  - done.
  - simpl in Hres. unfold commandResolves in Hres at 1.
    destruct (Commands_getattr (cs_typeLogic commandSave)) as [commandType|];
      [|done].
    apply IH. done.
Qed.

(** The whole load of a script whose tags all name a class. *)
Lemma loadEvents_resolved env script s errors :
  resolves Events_getattr Commands_getattr script = true ->
  loadEvents Events_getattr Commands_getattr env script s errors
  = (set_events s (events s
                   ++ omap (builtEvent Events_getattr Commands_getattr env) script),
     Return (recordAll errors
               (reports Events_getattr Commands_getattr env script))).
Proof.
  revert s errors.
  induction script as [|eventSave rest IH]; intros s errors Hres; simpl.
  - by rewrite app_nil_r, set_events_id.
  - simpl in Hres. apply andb_true_iff in Hres as [He Hrest].
    unfold eventResolves in He. unfold builtEvent at 1, eventReports at 1.
    destruct (Events_getattr (es_typeLogic eventSave)) as [eventType|];
      [|done].
    rewrite loadCommands_resolved by done.
    rewrite IH by done.
    rewrite recordErrors_recordAll, <- !recordAll_app.
    unfold addEvent. simpl. rewrite <- !app_assoc. done.
Qed.

(** A tag that names no class makes the load raise. *)
Lemma loadEvents_unresolved env script s errors :
  resolves Events_getattr Commands_getattr script = false ->
  (loadEvents Events_getattr Commands_getattr env script s errors).2 = Raise.
Proof.
  revert s errors.
  induction script as [|eventSave rest IH]; intros s errors Hres; simpl.
  - done.
  - simpl in Hres. unfold eventResolves in Hres at 1.
    destruct (Events_getattr (es_typeLogic eventSave)) as [eventType|];
      [|done].
    destruct (loadCommands _ _ _ _ _) as [[event' errors'] ok] eqn:Hload.
    destruct (forallb _ (es_commandList eventSave)) eqn:Hcmds.
    + rewrite loadCommands_resolved in Hload by done. simplify_eq.
      apply IH. done.
    + pose proof (loadCommands_unresolved env _
                    (eventType env (es_parameters eventSave))
                    (recordErrors (evErrors (eventType env (es_parameters eventSave)))
                                  (es_typeLogic eventSave) errors) Hcmds) as Hno.
      rewrite Hload in Hno. simpl in Hno. subst ok. done.
Qed.

Lemma omap_builtEvent_Forall2 env script :
  resolves Events_getattr Commands_getattr script = true ->
  Forall2 (fun eventSave event =>
             builtEvent Events_getattr Commands_getattr env eventSave = Some event)
          script
          (omap (builtEvent Events_getattr Commands_getattr env) script).
Proof.
  induction script as [|eventSave rest IH]; intros Hres; simpl; [constructor|].
  simpl in Hres. apply andb_true_iff in Hres as [He Hrest].
  unfold eventResolves in He. unfold builtEvent at 2. unfold builtEvent at 1 in IH.
  destruct (Events_getattr (es_typeLogic eventSave)) as [eventType|] eqn:Hev;
    [|done].
  constructor; [|by apply IH].
  unfold builtEvent. by rewrite Hev.
Qed.

(** C4, as the code has it.  When every [typeLogic] of the script names
    a class, [loadScript] returns, and the map it returns holds under
    each kind of error exactly the tags of the descriptors whose
    objects reported it, in the order of the script (and no entry for
    a kind nobody reported). *)
Theorem loadScript_returns_when_resolved s script env :
  resolves Events_getattr Commands_getattr script = true ->
  exists errors,
    (loadScript Events_getattr Commands_getattr s script env).2 = Return errors
    /\ forall kind,
        errors !! kind
        = match tagsOf kind (reports Events_getattr Commands_getattr env script) with
          | [] => None
          | tags => Some tags
          end.
Proof.
  intros Hres. unfold loadScript. rewrite loadEvents_resolved by done.
  eexists. split; [done|]. intros kind.
  rewrite recordAll_lookup, lookup_empty. simpl. by destruct (tagsOf _ _).
Qed.

(** The other half: one tag that names no class, in an event or in a
    command descriptor, and [loadScript] raises. *)
Lemma loadScript_raises_when_unresolved s script env :
  resolves Events_getattr Commands_getattr script = false ->
  (loadScript Events_getattr Commands_getattr s script env).2 = Raise.
Proof. apply loadEvents_unresolved. Qed.

(** C5, as the code has it.  After [loadScript] of a script whose
    tags all name a class, the event list is the list as it was
    before, followed by one event per descriptor, each the event of
    its descriptor, in the order of the script; so there are
    [length script] more events than before, and exactly
    [length script] when there were none. *)
Theorem loadScript_appends_events s script env :
  resolves Events_getattr Commands_getattr script = true ->
  exists newEvents,
    events (loadScript Events_getattr Commands_getattr s script env).1
    = events s ++ newEvents
    /\ Forall2 (fun eventSave event =>
                  builtEvent Events_getattr Commands_getattr env eventSave
                  = Some event) script newEvents
    /\ length newEvents = length script
    /\ (events s = [] ->
        length (events (loadScript Events_getattr Commands_getattr s script env).1)
        = length script).
Proof.
  intros Hres. unfold loadScript. rewrite loadEvents_resolved by done.
  pose proof (omap_builtEvent_Forall2 env script Hres) as Hall.
  eexists. split; [done|]. split; [exact Hall|].
  pose proof (Forall2_length _ _ _ Hall) as Hlen.
  split; [done|]. intros Hnil. simpl. rewrite Hnil. simpl. done.
Qed.

End LoaderFacts.

(** A script with a mistyped command class: the load raises, with the
    event already in the list and its first command attached. *)
Lemma loadScript_raises_on_unknown_tag :
  let r := loadScript Sample.Events_getattr Sample.Commands_getattr
                      init Sample.typoScript Sample.env in
  r.2 = Raise
  /\ map (fun event => (eventClass event, length (commandList event)))
         (events r.1) = [("InitEvent", 1)].
Proof. split; reflexivity. Qed.

Lemma loadScript_returns_when_resolved_witness :
  exists errors,
    (loadScript Sample.Events_getattr Sample.Commands_getattr
                init Sample.tipScript Sample.env).2 = Return errors
    /\ forall kind,
        errors !! kind
        = match tagsOf kind (reports Sample.Events_getattr
                                     Sample.Commands_getattr Sample.env
                                     Sample.tipScript) with
          | [] => None
          | tags => Some tags
          end.
Proof.
  apply (loadScript_returns_when_resolved Sample.Events_getattr
           Sample.Commands_getattr init Sample.tipScript Sample.env).
  reflexivity.
Defined.

Example loadScript_tipScript_errors :
  (loadScript Sample.Events_getattr Sample.Commands_getattr
              init Sample.tipScript Sample.env).2
  = Return {[ "Robot" := ["TipEvent"; "MoveXYZCommand"] ]}.
Proof. vm_compute. reflexivity. Qed.

(** Loading the same two-event script twice without a stop in between
    leaves four events: those of the first load are still there. *)
Lemma loadScript_keeps_prior_events :
  let s1 := (loadScript Sample.Events_getattr Sample.Commands_getattr
                        init Sample.tipScript Sample.env).1 in
  let s2 := (loadScript Sample.Events_getattr Sample.Commands_getattr
                        s1 Sample.tipScript Sample.env).1 in
  length Sample.tipScript = 2
  /\ length (events s2) = 4
  /\ take 2 (events s2) = events s1
  /\ length (events s2) <> length Sample.tipScript.
Proof. split_and!; [reflexivity|reflexivity|reflexivity|discriminate]. Qed.

Lemma loadScript_appends_events_witness :
  exists newEvents,
    events (loadScript Sample.Events_getattr Sample.Commands_getattr
                       init Sample.tipScript Sample.env).1
    = events (@init unit) ++ newEvents
    /\ Forall2 (fun eventSave event =>
                  builtEvent Sample.Events_getattr Sample.Commands_getattr
                             Sample.env eventSave = Some event)
               Sample.tipScript newEvents
    /\ length newEvents = length Sample.tipScript
    /\ (events (@init unit) = [] ->
        length (events (loadScript Sample.Events_getattr Sample.Commands_getattr
                                   init Sample.tipScript Sample.env).1)
        = length Sample.tipScript).
Proof.
  apply (loadScript_appends_events Sample.Events_getattr
           Sample.Commands_getattr init Sample.tipScript Sample.env).
  reflexivity.
Defined.

(** ** Start, stop and status *)
Section LifecycleFacts.

Context {World : Type}.
Implicit Types (s : Interpreter World) (robot vision : Value).

(** Every name of [safeList] is looked up in a namespace that does not
    have it, so the rebuilt store binds it to [None]. *)
Lemma resetVariables_safeList robot vision k :
  k ∈ safeList -> resetVariables robot vision !! k = Some VNone.
Proof.
  intros Hk. unfold safeList in Hk.
  repeat (apply elem_of_cons in Hk as [->|Hk]; [vm_compute; reflexivity|]).
  by apply elem_of_nil in Hk.
Qed.

Lemma resetVariables_handles robot vision :
  resetVariables robot vision !! "abs" = Some (VBuiltin "abs")
  /\ resetVariables robot vision !! "robot" = Some robot
  /\ resetVariables robot vision !! "vision" = Some vision.
Proof. split_and!; vm_compute; reflexivity. Qed.

(** [endThread] answers [True] exactly when there was a worker and it
    ended within the join. *)
Lemma endThread_true_iff s robot vision aliveAfterJoin :
  (endThread s robot vision aliveAfterJoin).2 = Some true
  <-> mainThread s <> None /\ aliveAfterJoin = false.
Proof.
  unfold endThread. cbn -[resetVariables].
  destruct (mainThread s), aliveAfterJoin; cbn -[resetVariables];
    split; try (intros [? ?]); done.
Qed.

(** C6, at a stop that succeeds.  [endThread] answers [True], the
    event list is empty and no worker is attached; the store holds
    [abs] and the two handles, and binds every name of [safeList] to
    [None], not to a function or constant of [math]. *)
Theorem endThread_binds_math_names_to_None s robot vision thread :
  mainThread s = Some thread ->
  let r := endThread s robot vision false in
  r.2 = Some true
  /\ events r.1.1 = []
  /\ mainThread r.1.1 = None
  /\ (forall k, k ∈ safeList -> variables r.1.1 !! k = Some VNone)
  /\ variables r.1.1 !! "abs" = Some (VBuiltin "abs")
  /\ variables r.1.1 !! "robot" = Some robot
  /\ variables r.1.1 !! "vision" = Some vision.
Proof.
  intros Hthread. unfold endThread. cbn -[resetVariables].
  rewrite Hthread. cbn -[resetVariables].
  split_and!.
  - reflexivity.
  - reflexivity.
  - reflexivity.
  - intros k Hk. by apply resetVariables_safeList.
  - apply resetVariables_handles.
  - apply resetVariables_handles.
  - apply resetVariables_handles.
Qed.

(** C8, as the code has it.  [getStatus] answers [False] exactly while
    the exit flag is set, which covers every state that is not
    running; with the flag down it hands out [currRunning]. *)
Theorem getStatus_false_iff_exiting s :
  (getStatus s = StatusFalse <-> isExiting s = true)
  /\ (isRunning s = false -> getStatus s = StatusFalse)
  /\ (isExiting s = false -> getStatus s = StatusRunning (currRunning s)).
Proof.
  unfold getStatus, isRunning, isExiting.
  destruct (exiting s); simpl; split_and!; done.
Qed.

End LifecycleFacts.

(** A fresh interpreter, started and stopped. *)
Lemma endThread_binds_math_names_to_None_witness :
  let s := (startThread (@init unit) (VObject "robot") (VObject "vision")).1 in
  let r := endThread s (VObject "robot") (VObject "vision") false in
  r.2 = Some true
  /\ events r.1.1 = []
  /\ mainThread r.1.1 = None
  /\ (forall k, k ∈ safeList -> variables r.1.1 !! k = Some VNone)
  /\ variables r.1.1 !! "abs" = Some (VBuiltin "abs")
  /\ variables r.1.1 !! "robot" = Some (VObject "robot")
  /\ variables r.1.1 !! "vision" = Some (VObject "vision").
Proof.
  apply (endThread_binds_math_names_to_None
           (startThread (@init unit) (VObject "robot") (VObject "vision")).1
           (VObject "robot") (VObject "vision") ProgramThread).
  reflexivity.
Defined.

(** After a stop that timed out the worker is still attached:
    [isRunning] holds, and [getStatus] answers [False] all the same. *)
Lemma getStatus_false_while_running :
  let s0 := (startThread (@init unit) (VObject "robot") (VObject "vision")).1 in
  let r := endThread s0 (VObject "robot") (VObject "vision") true in
  r.2 = Some false
  /\ isRunning r.1.1 = true
  /\ getStatus r.1.1 = StatusFalse.
Proof. split_and!; reflexivity. Qed.

(** ** The expression fragment *)

(** The fragment made total agrees with the fragment. *)
Lemma strict_eval_agrees : PyExpr.agrees PyExpr.strict_eval.
Proof.
  intros expression vars r Hr. unfold PyExpr.strict_eval. by rewrite Hr.
Qed.

(** Division by zero raises, whatever the store. *)
Lemma expr_eval_div_zero vars : PyExpr.expr_eval "1/0" vars = Some Raised.
Proof. reflexivity. Qed.

(** Calling a name bound to [None] raises; so does calling an unbound
    name. *)
Lemma expr_eval_sqrt_not_callable vars :
  vars !! "sqrt" = Some VNone \/ vars !! "sqrt" = None ->
  PyExpr.expr_eval "sqrt(16)" vars = Some Raised.
Proof.
  intros H.
  change (PyExpr.expr_eval "sqrt(16)" vars)
    with (PyExpr.eval (PyExpr.ECall "sqrt" [PyExpr.EInt 16]) vars).
  simpl. by destruct H as [-> | ->].
Qed.

(** With [sqrt] bound to [math.sqrt] the value is the float 4.0. *)
Lemma expr_eval_sqrt_bound vars :
  vars !! "sqrt" = Some (VBuiltin "sqrt") ->
  PyExpr.expr_eval "sqrt(16)" vars
  = Some (Returned (VFloat (S754_finite false 4503599627370496 (-50)))).
Proof.
  intros H.
  change (PyExpr.expr_eval "sqrt(16)" vars)
    with (PyExpr.eval (PyExpr.ECall "sqrt" [PyExpr.EInt 16]) vars).
  simpl. rewrite H. reflexivity.
Qed.

Example expr_eval_sum : PyExpr.expr_eval "1+1" ∅ = Some (Returned (VInt 2)).
Proof. reflexivity. Qed.

Example expr_eval_precedence :
  PyExpr.expr_eval " 2 * (3 + x) - -abs(0-7)"
                   {[ "x" := VInt 4; "abs" := VBuiltin "abs" ]}
  = Some (Returned (VInt 21)).
Proof. vm_compute. reflexivity. Qed.

Example expr_eval_outside_fragment :
  PyExpr.expr_eval "2**3" ∅ = None /\ PyExpr.expr_eval "not x" ∅ = None.
Proof. split; reflexivity. Qed.

(** ** The variable store and the sandbox *)
Section StoreFacts.

Context {World : Type}.
Variable py_eval : string -> gmap string Value -> EvalOutcome.
Variable py_exec : string -> gmap string Value -> ExecOutcome.

Implicit Types (s : Interpreter World) (vars : gmap string Value).

(** Whatever makes [eval] raise, a syntax error, an unbound name or an
    error at run time, the answer is [(None, False)]. *)
Lemma evaluateExpression_raised s expression :
  py_eval expression (variables s) = Raised ->
  evaluateExpression py_eval s expression = (VNone, false).
Proof. unfold evaluateExpression. by intros ->. Qed.

(** An expression whose value is [None] is reported like a crash. *)
Lemma evaluateExpression_none s expression :
  py_eval expression (variables s) = Returned VNone ->
  evaluateExpression py_eval s expression = (VNone, false).
Proof. unfold evaluateExpression. by intros ->. Qed.

Lemma evaluateExpression_value s expression v :
  py_eval expression (variables s) = Returned v ->
  isNone v = false ->
  evaluateExpression py_eval s expression = (v, true).
Proof. unfold evaluateExpression. intros -> Hv. by rewrite Hv. Qed.

(** The second component is [false] exactly when the first is [None]. *)
Lemma evaluateExpression_success_iff s expression :
  (evaluateExpression py_eval s expression).2 = false
  <-> (evaluateExpression py_eval s expression).1 = VNone.
Proof.
  unfold evaluateExpression.
  destruct (py_eval expression (variables s)) as [[]|]; simpl; done.
Qed.

(** The store after [setVariable]: [name] is bound to whatever
    [evaluateExpression] answered, [None] included; other names keep
    their binding. *)
Lemma setVariable_variables s name expression :
  let vars0 :=
    match variables s !! name with
    | None => <[name := VInt 0]> (variables s)
    | Some _ => variables s
    end in
  variables (setVariable py_eval s name expression)
  = <[name := (evaluateExpression py_eval (set_variables s vars0) expression).1]>
      vars0.
Proof.
  unfold setVariable. simpl.
  destruct (variables s !! name) eqn:Hn; simpl.
  - replace (set_variables s (variables s)) with s by (by destruct s).
    by destruct (evaluateExpression py_eval s expression).
  - by destruct (evaluateExpression py_eval _ expression).
Qed.

(** C3, where it fails.  An assignment whose expression does not
    evaluate, here ["1/0"], leaves the name bound to [None]: neither to
    its previous value nor, for a new name, to the default 0. *)
Theorem setVariable_failure_stores_None s name :
  PyExpr.agrees py_eval ->
  getVariable (setVariable py_eval s name "1/0") name = (VNone, true).
Proof.
  intros Hagree. unfold getVariable.
  rewrite setVariable_variables. simpl.
  rewrite lookup_insert_eq.
  rewrite evaluateExpression_raised; [done|].
  apply Hagree, expr_eval_div_zero.
Qed.

(** When the expression evaluates to a value, that value is stored. *)
Lemma setVariable_success_stores_value s name expression v :
  (forall vars, py_eval expression vars = Returned v) ->
  isNone v = false ->
  getVariable (setVariable py_eval s name expression) name = (v, true).
Proof.
  intros Hv Hnone. unfold getVariable.
  rewrite setVariable_variables. simpl.
  rewrite lookup_insert_eq.
  by rewrite (evaluateExpression_value _ _ v).
Qed.

(** C7, where it fails.  On a fresh interpreter, and on one that was
    started and stopped, ["sqrt(16)"] evaluates to [(None, False)]:
    [sqrt] is unbound in the first and bound to [None] in the second.
    ["1/0"] evaluates to [(None, False)] on every store. *)
Theorem evaluateExpression_sqrt_fails robot vision s :
  PyExpr.agrees py_eval ->
  let started := (startThread (@init World) robot vision).1 in
  let stopped := (endThread started robot vision false).1.1 in
  evaluateExpression py_eval (@init World) "sqrt(16)" = (VNone, false)
  /\ evaluateExpression py_eval stopped "sqrt(16)" = (VNone, false)
  /\ evaluateExpression py_eval s "1/0" = (VNone, false).
Proof.
  intros Hagree started stopped. split_and!.
  - apply evaluateExpression_raised, Hagree, expr_eval_sqrt_not_callable.
    right. reflexivity.
  - apply evaluateExpression_raised, Hagree, expr_eval_sqrt_not_callable.
    left. apply resetVariables_safeList. unfold safeList.
    repeat constructor.
  - apply evaluateExpression_raised, Hagree, expr_eval_div_zero.
Qed.

(** Had the store bound [sqrt] to [math.sqrt], the answer would be
    [(4.0, True)]. *)
Lemma evaluateExpression_sqrt_bound s :
  PyExpr.agrees py_eval ->
  variables s !! "sqrt" = Some (VBuiltin "sqrt") ->
  evaluateExpression py_eval s "sqrt(16)"
  = (VFloat (S754_finite false 4503599627370496 (-50)), true).
Proof.
  intros Hagree Hsqrt.
  apply evaluateExpression_value; [|done].
  by apply Hagree, expr_eval_sqrt_bound.
Qed.

(** C10. Whatever the script does, raise or run to its end,
    [evaluateScript] answers [(None, False)]. *)
Theorem evaluateScript_always_None_False s script env :
  evaluateScript py_exec s script env = (VNone, false).
Proof.
  unfold evaluateScript. by destruct (py_exec script _).
Qed.

End StoreFacts.

(** [x] holds 5; after [setVariable("x", "1/0")] it holds [None]. *)
Lemma setVariable_failure_stores_None_witness :
  let s := set_variables (@init unit) {[ "x" := VInt 5 ]} in
  getVariable s "x" = (VInt 5, true)
  /\ getVariable (setVariable PyExpr.strict_eval s "x" "1/0") "x" = (VNone, true).
Proof.
  split; [reflexivity|].
  apply (setVariable_failure_stores_None PyExpr.strict_eval
           (set_variables (@init unit) {[ "x" := VInt 5 ]}) "x").
  exact strict_eval_agrees.
Defined.

Lemma evaluateExpression_sqrt_fails_witness :
  let started := (startThread (@init unit) (VObject "robot") (VObject "vision")).1 in
  let stopped := (endThread started (VObject "robot") (VObject "vision") false).1.1 in
  evaluateExpression PyExpr.strict_eval (@init unit) "sqrt(16)" = (VNone, false)
  /\ evaluateExpression PyExpr.strict_eval stopped "sqrt(16)" = (VNone, false)
  /\ evaluateExpression PyExpr.strict_eval (@init unit) "1/0" = (VNone, false).
Proof.
  apply (evaluateExpression_sqrt_fails PyExpr.strict_eval
           (VObject "robot") (VObject "vision") (@init unit)).
  exact strict_eval_agrees.
Defined.

Example setVariable_then_getVariable :
  getVariable (setVariable PyExpr.strict_eval (@init unit) "x" "1+1") "x"
  = (VInt 2, true)
  /\ getVariable (@init unit) "y" = (VInt 0, false).
Proof. split; vm_compute; reflexivity. Qed.

(** * Further properties *)

(** ** The scan over blocks *)
Section ScanFacts.

Context {World : Type}.
Variable exitFlag : World -> bool.

Implicit Types (commandList pre body post : list (Command World))
         (c start stop : Command World) (w : World).

(** The scan stays between its starting point and the last index. *)
Theorem getNextIndex_bounds index commandList :
  index <= getNextIndex index commandList
  /\ (index < length commandList ->
      getNextIndex index commandList < length commandList).
Proof.
  split; [apply getNextIndex_ge | apply getNextIndex_lt].
Qed.

(** Without a [StartBlockCommand] right after [index] the scan
    returns [index] itself: a [False] in front of a single command
    skips nothing. *)
Theorem getNextIndex_no_block index commandList :
  noBlockAhead (drop (index + 1) commandList) = true ->
  getNextIndex index commandList = index
  /\ nextCursor commandList index Skip = Some (index + 1).
Proof.
  intros Hno. unfold nextCursor.
  assert (getNextIndex index commandList = index) as ->; [|done].
  unfold getNextIndex.
  destruct (drop (index + 1) commandList) as [|c rest]; simpl in *; [done|].
  apply negb_true_iff in Hno. rewrite Hno. simpl. lia.
Qed.

(** Inside an open block the scan walks over a well-nested stretch
    without stopping, as long as something follows it. *)
Lemma getNextIndex_loop_closes body :
  forall k (D : Z) i rest len index,
    closes k body = true ->
    (1 <= D)%Z ->
    rest <> [] ->
    i + length body + length rest = len ->
    getNextIndex_loop (body ++ rest) i len (D + Z.of_nat k) index
    = getNextIndex_loop rest (i + length body) len D index.
Proof.
  induction body as [|c body IH]; intros k D i rest len index Hc HD Hrest Hlen.
  - simpl in *. apply Nat.eqb_eq in Hc. subst k.
    rewrite Z.add_0_r, Nat.add_0_r. done.
  - assert (0 < length rest) by (destruct rest; simpl; [done|lia]).
    simpl in Hc, Hlen. simpl. unfold skipToIndent.
    replace (i + S (length body)) with (S i + length body) by lia.
    destruct (cmdType c) eqn:Ht; simpl in *.
    + destruct (Z.eqb_spec (D + Z.of_nat k + 1) 0); [lia|].
      destruct (Z.eqb_spec (Z.of_nat i) (Z.of_nat len - 1)); [lia|].
      replace (D + Z.of_nat k + 1)%Z with (D + Z.of_nat (S k))%Z by lia.
      apply IH; [done|done|done|lia].
    + destruct k as [|k]; [done|].
      destruct (Z.eqb_spec (D + Z.of_nat (S k)) 0); [lia|].
      destruct (Z.eqb_spec (Z.of_nat i) (Z.of_nat len - 1)); [lia|].
      replace (D + Z.of_nat (S k) - 1)%Z with (D + Z.of_nat k)%Z by lia.
      apply IH; [done|done|done|lia].
    + destruct (Z.eqb_spec (D + Z.of_nat k) 0); [lia|].
      destruct (Z.eqb_spec (Z.of_nat i) (Z.of_nat len - 1)); [lia|].
      apply IH; [done|done|done|lia].
    + destruct (Z.eqb_spec (D + Z.of_nat k) 0); [lia|].
      destruct (Z.eqb_spec (Z.of_nat i) (Z.of_nat len - 1)); [lia|].
      apply IH; [done|done|done|lia].
Qed.

(** The same stretch at the very end of the list: the scan stops on
    the last index. *)
Lemma getNextIndex_loop_open body :
  forall k (D : Z) i len index,
    closes k body = true ->
    (1 <= D)%Z ->
    body <> [] ->
    i + length body = len ->
    getNextIndex_loop body i len (D + Z.of_nat k) index = len - 1.
Proof.
  induction body as [|c body IH]; intros k D i len index Hc HD Hne Hlen; [done|].
  simpl in Hc, Hlen. simpl. unfold skipToIndent.
  destruct (cmdType c) eqn:Ht; simpl in *.
  - destruct (Z.eqb_spec (D + Z.of_nat k + 1) 0); [lia|].
    destruct (Z.eqb_spec (Z.of_nat i) (Z.of_nat len - 1)); [lia|].
    replace (D + Z.of_nat k + 1)%Z with (D + Z.of_nat (S k))%Z by lia.
    apply IH; [done|done| |lia]. destruct body; simpl in *; [lia|done].
  - destruct k as [|k]; [done|].
    destruct (Z.eqb_spec (D + Z.of_nat (S k)) 0); [lia|].
    destruct (Z.eqb_spec (Z.of_nat i) (Z.of_nat len - 1)); [lia|].
    replace (D + Z.of_nat (S k) - 1)%Z with (D + Z.of_nat k)%Z by lia.
    apply IH; [done|done| |lia]. destruct body; simpl in *; [lia|done].
  - destruct (Z.eqb_spec (D + Z.of_nat k) 0); [lia|].
    destruct (Z.eqb_spec (Z.of_nat i) (Z.of_nat len - 1)); [lia|].
    apply IH; [done|done| |lia]. destruct body; simpl in *; [lia|done].
  - destruct (Z.eqb_spec (D + Z.of_nat k) 0); [lia|].
    destruct (Z.eqb_spec (Z.of_nat i) (Z.of_nat len - 1)); [lia|].
    apply IH; [done|done| |lia]. destruct body; simpl in *; [lia|done].
Qed.

Lemma drop_after_prefix pre c (rest : list (Command World)) :
  drop (length pre + 1) (pre ++ c :: rest) = rest.
Proof.
  rewrite drop_app_ge by lia.
  replace (length pre + 1 - length pre) with 1 by lia. done.
Qed.

(** The scan in front of a whole block, with no block open: it walks
    to the block's [EndBlockCommand] and, if more follows, goes on
    from the command after it. *)
Lemma getNextIndex_loop_block start body stop post i len index :
  cmdType start = StartBlockCommand ->
  cmdType stop = EndBlockCommand ->
  closes 0 body = true ->
  i + length body + 2 + length post = len ->
  getNextIndex_loop (start :: body ++ stop :: post) i len 0 index
  = match post with
    | [] => i + length body + 1
    | _ :: _ => getNextIndex_loop post (i + length body + 2) len 0 index
    end.
Proof.
  intros Hs He Hc Hlen.
  cbn [getNextIndex_loop]. rewrite Hs. cbn [isStartBlock isEndBlock].
  unfold skipToIndent.
  destruct (Z.eqb_spec (0 + 1) 0); [lia|].
  destruct (Z.eqb_spec (Z.of_nat i) (Z.of_nat len - 1)); [lia|].
  change (0 + 1)%Z with (1 + Z.of_nat 0)%Z.
  rewrite getNextIndex_loop_closes;
    [|done|lia|done|simpl; lia].
  cbn [getNextIndex_loop]. rewrite He. cbn [isStartBlock isEndBlock].
  destruct (Z.eqb_spec 1 skipToIndent) as [Habs|_]; [unfold skipToIndent in Habs; lia|].
  destruct post as [|c' post'].
  - simpl in Hlen.
    destruct (Z.eqb_spec (Z.of_nat (S i + length body)) (Z.of_nat len - 1));
      lia.
  - simpl in Hlen.
    destruct (Z.eqb_spec (Z.of_nat (S i + length body)) (Z.of_nat len - 1));
      [lia|].
    replace (S (S i + length body)) with (i + length body + 2) by lia.
    done.
Qed.

Lemma getNextIndex_block_end pre c start body stop post :
  cmdType start = StartBlockCommand ->
  cmdType stop = EndBlockCommand ->
  closes 0 body = true ->
  noBlockAhead post = true ->
  getNextIndex (length pre) (pre ++ c :: start :: body ++ stop :: post)
  = length pre + length body + 2.
Proof.
  intros Hs He Hc Hno.
  unfold getNextIndex. rewrite drop_after_prefix.
  rewrite (getNextIndex_loop_block start body stop post) by
    (try done; rewrite !length_app; simpl; rewrite !length_app; simpl; lia).
  destruct post as [|c' post']; [lia|].
  simpl in Hno. apply negb_true_iff in Hno.
  cbn [getNextIndex_loop]. rewrite Hno. simpl. lia.
Qed.

Lemma lookup_after_block pre c start body stop post :
  (pre ++ c :: start :: body ++ stop :: post) !! (length pre + length body + 3)
  = head post.
Proof.
  rewrite lookup_app_r by lia.
  replace (length pre + length body + 3 - length pre)
    with (S (S (length body + 1))) by lia.
  simpl. rewrite lookup_app_r by lia.
  replace (length body + 1 - length body) with 1 by lia.
  simpl. by destruct post.
Qed.

(** A [False] in front of a well-nested block: the scan returns the
    index of the block's [EndBlockCommand], so the cursor lands on the
    first command after the block (or past the end when the block is
    the last thing in the list). *)
Theorem getNextIndex_skips_block pre c start body stop post :
  let commandList := pre ++ c :: start :: body ++ stop :: post in
  cmdType start = StartBlockCommand ->
  cmdType stop = EndBlockCommand ->
  closes 0 body = true ->
  noBlockAhead post = true ->
  getNextIndex (length pre) commandList = length pre + length body + 2
  /\ commandList !! (length pre + length body + 2) = Some stop
  /\ nextCursor commandList (length pre) Skip
     = Some (length pre + length body + 3)
  /\ commandList !! (length pre + length body + 3) = head post.
Proof.
  intros commandList Hs He Hc Hno.
  pose proof (getNextIndex_block_end pre c start body stop post Hs He Hc Hno)
    as Hscan.
  fold commandList in Hscan.
  split_and!.
  - done.
  - unfold commandList.
    rewrite lookup_app_r by lia.
    replace (length pre + length body + 2 - length pre)
      with (S (S (length body))) by lia.
    simpl. rewrite lookup_app_r by lia.
    by replace (length body - length body) with 0 by lia.
  - unfold nextCursor. rewrite Hscan. f_equal. lia.
  - apply lookup_after_block.
Qed.

(** Two blocks back to back are taken as one: the scan does not stop
    between them and returns the index of the second
    [EndBlockCommand]. *)
Theorem getNextIndex_skips_adjacent_blocks
        pre c start1 body1 stop1 start2 body2 stop2 post :
  let commandList :=
    pre ++ c :: start1 :: body1 ++ stop1 :: start2 :: body2 ++ stop2 :: post in
  cmdType start1 = StartBlockCommand ->
  cmdType stop1 = EndBlockCommand ->
  cmdType start2 = StartBlockCommand ->
  cmdType stop2 = EndBlockCommand ->
  closes 0 body1 = true ->
  closes 0 body2 = true ->
  noBlockAhead post = true ->
  getNextIndex (length pre) commandList
  = length pre + length body1 + length body2 + 4
  /\ commandList !! (length pre + length body1 + length body2 + 4) = Some stop2.
Proof.
  intros commandList Hs1 He1 Hs2 He2 Hc1 Hc2 Hno.
  split.
  - unfold getNextIndex, commandList. rewrite drop_after_prefix.
    rewrite (getNextIndex_loop_block start1 body1 stop1) by
      (try done; rewrite !length_app; simpl; rewrite !length_app; simpl;
       rewrite !length_app; simpl; lia).
    rewrite (getNextIndex_loop_block start2 body2 stop2) by
      (try done; rewrite !length_app; simpl; rewrite !length_app; simpl;
       rewrite !length_app; simpl; lia).
    destruct post as [|c' post']; [lia|].
    simpl in Hno. apply negb_true_iff in Hno.
    cbn [getNextIndex_loop]. rewrite Hno. simpl. lia.
  - unfold commandList.
    rewrite lookup_app_r by lia.
    replace (length pre + length body1 + length body2 + 4 - length pre)
      with (S (S (length body1 + (length body2 + 2)))) by lia.
    simpl. rewrite lookup_app_r by lia.
    replace (length body1 + (length body2 + 2) - length body1)
      with (S (S (length body2))) by lia.
    simpl. rewrite lookup_app_r by lia.
    by replace (length body2 - length body2) with 0 by lia.
Qed.

(** A block that is opened and never closed: the scan returns the
    last index, and the cursor leaves the list. *)
Theorem getNextIndex_open_block pre c start body :
  let commandList := pre ++ c :: start :: body in
  cmdType start = StartBlockCommand ->
  closes 0 body = true ->
  getNextIndex (length pre) commandList = length commandList - 1
  /\ nextCursor commandList (length pre) Skip = Some (length commandList)
  /\ commandList !! length commandList = None.
Proof.
  intros commandList Hs Hc.
  assert (Hlen : length commandList = length pre + 2 + length body).
  { unfold commandList. rewrite length_app. simpl. lia. }
  assert (Hscan : getNextIndex (length pre) commandList = length commandList - 1).
  { unfold getNextIndex. unfold commandList at 1. rewrite drop_after_prefix.
    cbn [getNextIndex_loop]. rewrite Hs. cbn [isStartBlock isEndBlock].
    unfold skipToIndent.
    destruct (Z.eqb_spec (0 + 1) 0); [lia|].
    destruct body as [|b body'].
    - simpl in Hlen.
      destruct (Z.eqb_spec (Z.of_nat (length pre + 1))
                           (Z.of_nat (length commandList) - 1)); lia.
    - simpl in Hlen.
      destruct (Z.eqb_spec (Z.of_nat (length pre + 1))
                           (Z.of_nat (length commandList) - 1)); [lia|].
      change (0 + 1)%Z with (1 + Z.of_nat 0)%Z.
      apply getNextIndex_loop_open; [done|lia|done|simpl; lia]. }
  split_and!.
  - done.
  - unfold nextCursor. rewrite Hscan. f_equal. lia.
  - apply lookup_ge_None. lia.
Qed.

(** A command that does not return [False], in front of an [Else]
    with its block: the cursor passes over the [Else] and its block
    and lands on the first command after them. *)
Theorem nextCursor_passes_else pre c cElse start body stop post :
  let commandList := pre ++ c :: cElse :: start :: body ++ stop :: post in
  cmdType cElse = ElseCommand ->
  cmdType start = StartBlockCommand ->
  cmdType stop = EndBlockCommand ->
  closes 0 body = true ->
  noBlockAhead post = true ->
  nextCursor commandList (length pre) Continue
  = Some (length pre + length body + 4)
  /\ commandList !! (length pre + length body + 4) = head post.
Proof.
  intros commandList HEl Hs He Hc Hno.
  pose proof (getNextIndex_block_end (pre ++ [c]) cElse start body stop post
                Hs He Hc Hno) as Hscan.
  pose proof (lookup_after_block (pre ++ [c]) cElse start body stop post)
    as Hpost.
  rewrite length_app in Hscan, Hpost. simpl in Hscan, Hpost.
  rewrite <- app_assoc in Hscan, Hpost. simpl in Hscan, Hpost.
  fold commandList in Hscan, Hpost.
  split.
  - unfold nextCursor.
    assert (commandList !! (length pre + 1) = Some cElse) as ->.
    { unfold commandList. rewrite lookup_app_r by lia.
      by replace (length pre + 1 - length pre) with 1 by lia. }
    rewrite HEl. simpl. rewrite Hscan. f_equal. lia.
  - rewrite <- Hpost. f_equal. lia.
Qed.

End ScanFacts.

(** ** One pass over an event *)
Section PassFacts.

Context {World : Type}.
Variable exitFlag : World -> bool.

Implicit Types (commandList : list (Command World)) (w : World).

(** A list without [StartBlockCommand] and without [ElseCommand]. *)
Lemma nextCursor_flat commandList index evaluation :
  (forall c, c ∈ commandList ->
             isStartBlock (cmdType c) = false /\ isElse (cmdType c) = false) ->
  evaluation <> Exit ->
  nextCursor commandList index evaluation = Some (index + 1).
Proof.
  intros Hflat Hexit. destruct evaluation; [| |done]; unfold nextCursor.
  - destruct (commandList !! (index + 1)) as [next|] eqn:Hnext; [|done].
    apply list_elem_of_lookup_2, Hflat in Hnext as [_ ->]. done.
  - f_equal. f_equal. unfold getNextIndex.
    destruct (drop (index + 1) commandList) as [|c rest] eqn:Hdrop; [done|].
    assert (commandList !! (index + 1) = Some c) as Hc.
    { rewrite <- (Nat.add_0_r (index + 1)), <- lookup_drop, Hdrop. done. }
    apply list_elem_of_lookup_2, Hflat in Hc as [Hs _].
    simpl. rewrite Hs. simpl. lia.
Qed.

Lemma interpretEvent_loop_flat commandList overrideKillApp :
  (forall c, c ∈ commandList ->
             isStartBlock (cmdType c) = false /\ isElse (cmdType c) = false) ->
  (forall c w0, c ∈ commandList -> (run c w0).1 <> Exit) ->
  (forall w0, exitFlag w0 && negb overrideKillApp = false) ->
  forall fuel index ran w,
    index <= length commandList ->
    length commandList - index < fuel ->
    exists w',
      interpretEvent_loop exitFlag fuel commandList overrideKillApp index ran w
      = Some (ran ++ seq index (length commandList - index), w').
Proof.
  intros Hflat Hexit Hcalm.
  induction fuel as [|fuel IH]; intros index ran w Hle Hfuel; [lia|].
  destruct (commandList !! index) as [c|] eqn:Hc.
  - pose proof (lookup_lt_Some _ _ _ Hc) as Hlt.
    rewrite (interpretEvent_loop_step exitFlag fuel _ _ _ _ _ c) by done.
    rewrite nextCursor_flat;
      [|done|by apply Hexit, (list_elem_of_lookup_2 _ index)].
    destruct (IH (index + 1) (ran ++ [index]) (run c w).2) as [w' Hw'];
      [lia|lia|].
    exists w'. rewrite Hw'. f_equal. f_equal. rewrite <- app_assoc. f_equal.
    replace (length commandList - index)
      with (S (length commandList - (index + 1))) by lia.
    simpl. f_equal. f_equal. lia.
  - apply lookup_ge_None in Hc.
    rewrite interpretEvent_loop_past_end by (by apply lookup_ge_None).
    exists w. replace (length commandList - index) with 0 by lia.
    simpl. by rewrite app_nil_r.
Qed.

(** In a list without blocks and without [Else], every command runs,
    in order, whatever the commands return short of ["Exit"]: a
    [False] there holds nothing back. *)
Theorem interpretEvent_flat_runs_all commandList overrideKillApp w :
  (forall c, c ∈ commandList ->
             isStartBlock (cmdType c) = false /\ isElse (cmdType c) = false) ->
  (forall c w0, c ∈ commandList -> (run c w0).1 <> Exit) ->
  (forall w0, exitFlag w0 && negb overrideKillApp = false) ->
  exists w',
    interpretEvent exitFlag commandList overrideKillApp w
    = Some (seq 0 (length commandList), w').
Proof.
  intros Hflat Hexit Hcalm.
  destruct (interpretEvent_loop_flat commandList overrideKillApp Hflat Hexit
              Hcalm (S (length commandList)) 0 [] w) as [w' Hw']; [lia|lia|].
  exists w'. unfold interpretEvent. rewrite Hw'.
  by rewrite Nat.sub_0_r.
Qed.

(** The exit flag is polled before each command: a pass that starts
    with the flag up runs nothing, and a command that leaves the flag
    up is the last one to run. *)
Theorem interpretEvent_stops_on_flag commandList w :
  (exitFlag w = true ->
   interpretEvent exitFlag commandList false w = Some ([], w))
  /\ (forall fuel index ran c,
        commandList !! index = Some c ->
        exitFlag w = false ->
        exitFlag (run c w).2 = true ->
        interpretEvent_loop exitFlag (S (S fuel)) commandList false index ran w
        = Some (ran ++ [index], (run c w).2)).
Proof.
  split.
  - intros Hflag. unfold interpretEvent. simpl.
    destruct commandList; simpl; [done|]. by rewrite Hflag.
  - intros fuel index ran c Hc Hdown Hup.
    rewrite (interpretEvent_loop_step exitFlag (S fuel) _ _ _ _ _ c)
      by (done || by rewrite Hdown).
    destruct (nextCursor commandList index (run c w).1) as [index'|]; [|done].
    simpl. destruct (commandList !! index'); [|done]. by rewrite Hup.
Qed.

End PassFacts.

Lemma interpretEvent_loop_override {World : Type} (flag1 flag2 : World -> bool)
      fuel (commandList : list (Command World)) index ran w :
  interpretEvent_loop flag1 fuel commandList true index ran w
  = interpretEvent_loop flag2 fuel commandList true index ran w.
Proof.
  revert index ran w. induction fuel as [|fuel IH]; intros index ran w; [done|].
  simpl. destruct (commandList !! index); [|done].
  rewrite !andb_false_r. destruct (run c w) as [evaluation w1].
  destruct (nextCursor commandList index evaluation); [apply IH|done].
Qed.

(** With [overrideKillApp] the exit flag plays no part: the pass is
    the one of an interpreter that was never asked to stop. *)
Theorem interpretEvent_override_ignores_flag {World : Type}
        (exitFlag : World -> bool) (commandList : list (Command World)) w :
  interpretEvent exitFlag commandList true w
  = interpretEvent (fun _ => false) commandList true w.
Proof. apply interpretEvent_loop_override. Qed.

(** ** The worker thread *)
Section SchedulerFacts.

Context {World : Type}.
Variable exitFlag : World -> bool.
Variable sameEvent : Event World -> Event World -> bool.
Variable timerStep : World -> bool * World.

Implicit Types (events rest : list (Event World)) (event : Event World)
         (currRunning : gmap nat (list nat)) (w : World).

(** An object of the list is found by [index], at or before its own
    position. *)
Lemma eventsIndex_found events event :
  (forall e, sameEvent e e = true) ->
  event ∈ events ->
  exists i, eventsIndex sameEvent events event = Some i /\ i < length events.
Proof.
  intros Hrefl. induction events as [|e events IH]; intros Hin.
  - by apply elem_of_nil in Hin.
  - simpl. destruct (sameEvent e event) eqn:Hsame.
    + exists 0. split; [done|lia].
    + apply elem_of_cons in Hin as [->|Hin]; [by rewrite Hrefl in Hsame|].
      destruct (IH Hin) as (i & -> & Hi). exists (S i). split; [done|lia].
Qed.

Lemma eventsIndex_lt events event i :
  eventsIndex sameEvent events event = Some i -> i < length events.
Proof.
  revert i. induction events as [|e events IH]; intros i; simpl; [done|].
  destruct (sameEvent e event); [intros [= <-]; lia|].
  destruct (eventsIndex sameEvent events event) as [j|]; [|done].
  intros [= <-]. specialize (IH j eq_refl). lia.
Qed.

Lemma interpretEventIn_ends events event overrideKillApp currRunning w :
  (forall e, sameEvent e e = true) ->
  event ∈ events ->
  statusOk events currRunning ->
  exists currRunning' w',
    interpretEventIn exitFlag sameEvent events event overrideKillApp
                     currRunning w
    = Ended (currRunning', w')
    /\ statusOk events currRunning'.
Proof.
  intros Hrefl Hin Hok. unfold interpretEventIn.
  destruct (eventsIndex_found events event Hrefl Hin) as (i & -> & Hi).
  destruct (interpretEvent_loop_total exitFlag (commandList event)
              overrideKillApp (length (commandList event)) 0 w ltac:(lia))
    as (ran & w' & Hloop & Hsorted & _).
  unfold interpretEvent. rewrite (Hloop _ []) by lia. simpl.
  eexists _, _. split; [done|].
  intros j ran' Hj. destruct (decide (i = j)) as [<-|Hne].
  - rewrite lookup_insert_eq in Hj. by simplify_eq.
  - rewrite lookup_insert_ne in Hj by done. by apply Hok.
Qed.

Lemma tick_loop_ends events rest currRunning w :
  (forall e, sameEvent e e = true) ->
  rest ⊆ events ->
  statusOk events currRunning ->
  exists currRunning' w',
    tick_loop exitFlag sameEvent events rest currRunning w
    = Ended (currRunning', w')
    /\ statusOk events currRunning'.
Proof.
  clear timerStep. intros Hrefl. revert currRunning w.
  induction rest as [|event rest IH]; intros currRunning w Hsub Hok; simpl.
  - by eexists _, _.
  - destruct (exitFlag w); [by eexists _, _|].
    assert (rest ⊆ events) as Hrest by set_solver.
    destruct (isActive event w); simpl; [|by apply IH].
    destruct (interpretEventIn_ends events event false currRunning w)
      as (cr1 & w1 & -> & Hok1); [done|set_solver|done|].
    by apply IH.
Qed.

(** A tick always comes to an end, when an event object is equal to
    itself: no [ValueError], no endless pass.  The status map it
    leaves has entries only for positions of the event list, each a
    strictly increasing list of command indices. *)
Theorem tick_ends events w :
  (forall e, sameEvent e e = true) ->
  exists currRunning w',
    tick exitFlag sameEvent events w = Ended (currRunning, w')
    /\ (forall i ran, currRunning !! i = Some ran ->
                      i < length events /\ StronglySorted lt ran).
Proof.
  intros Hrefl. unfold tick.
  apply tick_loop_ends; [done|done|].
  intros i ran Hi. by rewrite lookup_empty in Hi.
Qed.

Lemma tick_loop_idle events rest currRunning w :
  exitFlag w = true \/ (forall e, e ∈ rest -> isActive e w = false) ->
  tick_loop exitFlag sameEvent events rest currRunning w
  = Ended (currRunning, w).
Proof.
  clear timerStep.
  intros Hidle. induction rest as [|event rest IH]; simpl; [done|].
  destruct (exitFlag w) eqn:Hflag; [done|].
  destruct Hidle as [|Hidle]; [done|].
  rewrite (Hidle event) by set_solver. simpl.
  apply IH. right. intros e He. apply Hidle. set_solver.
Qed.

(** A tick with the exit flag up, or with no event active, runs
    nothing: the status map is empty and the world is as it was. *)
Theorem tick_idle events w :
  exitFlag w = true \/ (forall e, e ∈ events -> isActive e w = false) ->
  tick exitFlag sameEvent events w = Ended (∅, w).
Proof. apply tick_loop_idle. Qed.

(** The worker of an interpreter that is already asked to stop: no
    tick runs; the first [DestroyEvent] of the list runs, all of it,
    as if nobody had asked to stop, and nothing else does. *)
Theorem programThread_runs_destroy_on_exit fuel events currRunning w
        destroyEvent others i :
  exitFlag w = true ->
  filter (fun event => isDestroyEvent event = true) events
  = destroyEvent :: others ->
  eventsIndex sameEvent events destroyEvent = Some i ->
  exists ran w',
    interpretEvent (fun _ => false) (commandList destroyEvent) true w
    = Some (ran, w')
    /\ programThread exitFlag sameEvent timerStep (S fuel) events currRunning w
       = Ended (<[i := ran]> currRunning, w').
Proof.
  intros Hflag Hfilter Hindex.
  destruct (interpretEvent_loop_total (fun _ : World => false)
              (commandList destroyEvent) true
              (length (commandList destroyEvent)) 0 w ltac:(lia))
    as (ran & w' & Hloop & _ & _).
  exists ran, w'.
  assert (interpretEvent (fun _ => false) (commandList destroyEvent) true w
          = Some (ran, w')) as Hrun.
  { unfold interpretEvent. rewrite (Hloop _ []) by lia. done. }
  split; [done|].
  unfold programThread. simpl. rewrite Hflag, Hfilter.
  unfold interpretEventIn. rewrite Hindex.
  unfold interpretEvent in *.
  rewrite (interpretEvent_loop_override exitFlag (fun _ => false)), Hrun.
  done.
Qed.

(** Without a [DestroyEvent] in the list, the worker of an
    interpreter that is already asked to stop does nothing at all. *)
Theorem programThread_without_destroy fuel events currRunning w :
  exitFlag w = true ->
  (forall e, e ∈ events -> isDestroyEvent e = false) ->
  programThread exitFlag sameEvent timerStep (S fuel) events currRunning w
  = Ended (currRunning, w).
Proof.
  intros Hflag Hno. unfold programThread. simpl. rewrite Hflag.
  assert (filter (fun event => isDestroyEvent event = true) events = []) as ->;
    [|done].
  induction events as [|e events IH]; [done|].
  rewrite filter_cons. rewrite (Hno e) by set_solver.
  rewrite decide_False by done. apply IH. intros e' He'. apply Hno. set_solver.
Qed.

End SchedulerFacts.

(** ** More on the script loader *)
Section LoaderMore.

Context {World Params : Type}.
Variable Events_getattr :
  string -> option (Environment -> Params -> Event World).
Variable Commands_getattr :
  string -> option (Environment -> Params -> Command World).

Implicit Types (s : Interpreter World) (event : Event World)
         (errors : gmap string (list string)) (env : Environment)
         (script good rest : list (EventSave Params)).

(** The event and the flag that the inner loop returns do not depend
    on the errors collected so far. *)
Lemma loadCommands_errors_irrelevant env saves event errors1 errors2 :
  (loadCommands Commands_getattr env saves event errors1).1.1
  = (loadCommands Commands_getattr env saves event errors2).1.1
  /\ (loadCommands Commands_getattr env saves event errors1).2
     = (loadCommands Commands_getattr env saves event errors2).2.
Proof.
  revert event errors1 errors2.
  induction saves as [|commandSave saves IH]; intros event errors1 errors2;
    simpl; [done|].
  destruct (Commands_getattr (cs_typeLogic commandSave)); [|done].
  apply IH.
Qed.

(** Nor do the state and the raising of the outer loop. *)
Lemma loadEvents_errors_irrelevant env script s errors1 errors2 :
  (loadEvents Events_getattr Commands_getattr env script s errors1).1
  = (loadEvents Events_getattr Commands_getattr env script s errors2).1
  /\ ((loadEvents Events_getattr Commands_getattr env script s errors1).2 = Raise
      <-> (loadEvents Events_getattr Commands_getattr env script s errors2).2
          = Raise).
Proof.
  revert s errors1 errors2.
  induction script as [|eventSave script IH]; intros s errors1 errors2; simpl;
    [done|].
  destruct (Events_getattr (es_typeLogic eventSave)) as [eventType|]; [|done].
  set (event := eventType env (es_parameters eventSave)).
  pose proof (loadCommands_errors_irrelevant env (es_commandList eventSave) event
                (recordErrors (evErrors event) (es_typeLogic eventSave) errors1)
                (recordErrors (evErrors event) (es_typeLogic eventSave) errors2))
    as [Hev Hok].
  destruct (loadCommands _ _ _ _ (recordErrors _ _ errors1))
    as [[event1 e1] ok1].
  destruct (loadCommands _ _ _ _ (recordErrors _ _ errors2))
    as [[event2 e2] ok2].
  simpl in Hev, Hok. subst event2 ok2.
  destruct ok1; [apply IH|done].
Qed.

Lemma loadScript_frame s script env :
  let s' := (loadScript Events_getattr Commands_getattr s script env).1 in
  variables s' = variables s
  /\ exiting s' = exiting s
  /\ mainThread s' = mainThread s
  /\ currRunning s' = currRunning s
  /\ scriptFPS s' = scriptFPS s
  /\ events s `prefix_of` events s'.
Proof.
  unfold loadScript. generalize (∅ : gmap string (list string)) as errors.
  revert s. induction script as [|eventSave script IH]; intros s errors; simpl.
  - by split_and!.
  - destruct (Events_getattr (es_typeLogic eventSave)) as [eventType|];
      [|by split_and!].
    destruct (loadCommands _ _ _ _ _) as [[event errors'] ok].
    destruct ok.
    + specialize (IH (addEvent s event) errors').
      destruct IH as (Hv & He & Hm & Hc & Hf & Hp).
      split_and!; try done.
      etrans; [|exact Hp]. simpl. by apply prefix_app_r.
    + simpl. split_and!; try done. by apply prefix_app_r.
Qed.

(** [loadScript] writes to the event list and to nothing else, and
    only at its end: whatever the script, and whether the load
    returns or raises, the other fields are as before and the events
    that were there come first, unchanged. *)
Theorem loadScript_touches_only_events s script env :
  let s' := (loadScript Events_getattr Commands_getattr s script env).1 in
  variables s' = variables s
  /\ exiting s' = exiting s
  /\ mainThread s' = mainThread s
  /\ currRunning s' = currRunning s
  /\ scriptFPS s' = scriptFPS s
  /\ events s `prefix_of` events s'.
Proof. apply loadScript_frame. Qed.


Lemma loadEvents_app env good rest s errors :
  resolves Events_getattr Commands_getattr good = true ->
  loadEvents Events_getattr Commands_getattr env (good ++ rest) s errors
  = loadEvents Events_getattr Commands_getattr env rest
      (set_events s (events s
                     ++ omap (builtEvent Events_getattr Commands_getattr env) good))
      (recordAll errors (reports Events_getattr Commands_getattr env good)).
Proof.
  revert s errors.
  induction good as [|eventSave good IH]; intros s errors Hres; simpl.
  - by rewrite app_nil_r, set_events_id.
  - simpl in Hres. apply andb_true_iff in Hres as [He Hgood].
    unfold eventResolves in He. unfold builtEvent at 1, eventReports at 1.
    destruct (Events_getattr (es_typeLogic eventSave)) as [eventType|]; [|done].
    rewrite loadCommands_resolved by done.
    rewrite IH by done.
    rewrite recordErrors_recordAll, <- !recordAll_app.
    unfold addEvent. simpl. rewrite <- !app_assoc. done.
Qed.

(** Loading one script and then another leaves the interpreter as
    loading the two as one script does, when the first names only
    classes that exist. *)
Theorem loadScript_twice_is_append s script1 script2 env :
  resolves Events_getattr Commands_getattr script1 = true ->
  (loadScript Events_getattr Commands_getattr
     (loadScript Events_getattr Commands_getattr s script1 env).1 script2 env).1
  = (loadScript Events_getattr Commands_getattr s (script1 ++ script2) env).1.
Proof.
  intros Hres. unfold loadScript.
  rewrite loadEvents_app by done.
  rewrite (loadEvents_resolved Events_getattr Commands_getattr env script1)
    by done.
  simpl. apply loadEvents_errors_irrelevant.
Qed.

(** An event tag that names no class: the load raises there.  The
    events of the descriptors before it are in the list, complete;
    the descriptor itself and those after it have left no trace. *)
Theorem loadScript_stops_at_unknown_event s good bad rest env :
  resolves Events_getattr Commands_getattr good = true ->
  Events_getattr (es_typeLogic bad) = None ->
  loadScript Events_getattr Commands_getattr s (good ++ bad :: rest) env
  = (set_events s (events s
                   ++ omap (builtEvent Events_getattr Commands_getattr env) good),
     Raise).
Proof.
  intros Hres Hbad. unfold loadScript.
  rewrite loadEvents_app by done. simpl. by rewrite Hbad.
Qed.

Lemma loadCommands_stops env goodSaves badSave restSaves event errors :
  forallb (commandResolves Commands_getattr) goodSaves = true ->
  Commands_getattr (cs_typeLogic badSave) = None ->
  loadCommands Commands_getattr env (goodSaves ++ badSave :: restSaves)
               event errors
  = (withCommands event (builtCommands Commands_getattr env goodSaves),
     recordAll errors (commandReports Commands_getattr env goodSaves), false).
Proof.
  revert event errors.
  induction goodSaves as [|commandSave goodSaves IH]; intros event errors Hres Hbad;
    simpl.
  - rewrite Hbad. by rewrite withCommands_nil.
  - simpl in Hres. apply andb_true_iff in Hres as [Hc Hgood].
    unfold commandResolves in Hc.
    destruct (Commands_getattr (cs_typeLogic commandSave)) as [commandType|];
      [|done].
    rewrite IH by done.
    rewrite withCommands_addCommand, recordErrors_recordAll, recordAll_app.
    done.
Qed.

(** A command tag that names no class: the load raises there, and
    the event under construction is already in the list, with the
    commands of the descriptors before the bad one and no others. *)
Theorem loadScript_stops_at_unknown_command
        s good bad rest goodSaves badSave restSaves eventType env :
  resolves Events_getattr Commands_getattr good = true ->
  Events_getattr (es_typeLogic bad) = Some eventType ->
  es_commandList bad = goodSaves ++ badSave :: restSaves ->
  forallb (commandResolves Commands_getattr) goodSaves = true ->
  Commands_getattr (cs_typeLogic badSave) = None ->
  loadScript Events_getattr Commands_getattr s (good ++ bad :: rest) env
  = (set_events s
       (events s
        ++ omap (builtEvent Events_getattr Commands_getattr env) good
        ++ [withCommands (eventType env (es_parameters bad))
                         (builtCommands Commands_getattr env goodSaves)]),
     Raise).
Proof.
  intros Hres Hev Hsaves Hgood Hbad. unfold loadScript.
  rewrite loadEvents_app by done. simpl. rewrite Hev, Hsaves.
  rewrite loadCommands_stops by done.
  unfold addEvent. simpl. by rewrite <- app_assoc.
Qed.

End LoaderMore.

(** ** More on start and stop *)
Section LifecycleMore.

Context {World Params : Type}.
Variable Events_getattr :
  string -> option (Environment -> Params -> Event World).
Variable Commands_getattr :
  string -> option (Environment -> Params -> Command World).
Variable py_eval : string -> gmap string Value -> EvalOutcome.

Implicit Types (s : Interpreter World) (robot vision : Value).

Abbreviation act' := (act Events_getattr Commands_getattr py_eval).
Abbreviation history' := (history Events_getattr Commands_getattr py_eval).

(** A second [startThread] does nothing, whatever the first one
    found: no second worker, no call on the handles, no change. *)
Theorem startThread_twice s robot vision robot' vision' :
  startThread (startThread s robot vision).1 robot' vision'
  = ((startThread s robot vision).1, []).
Proof.
  unfold startThread. destruct (mainThread s) eqn:Hm; simpl; [|done].
  by rewrite Hm.
Qed.

(** After a stop that succeeded, a further [endThread] changes
    nothing, calls nothing, and returns neither [True] nor [False]
    but [None]. *)
Theorem endThread_after_clean_stop s robot vision robot' vision' alive :
  mainThread s <> None ->
  let stopped := (endThread s robot vision false).1.1 in
  endThread stopped robot' vision' alive = (stopped, [], None).
Proof.
  intros Hworker. unfold endThread. cbn -[resetVariables].
  destruct (mainThread s); [|congruence]. reflexivity.
Qed.

Lemma setVariable_fields s name expression :
  let s' := setVariable py_eval s name expression in
  events s' = events s /\ exiting s' = exiting s
  /\ mainThread s' = mainThread s /\ currRunning s' = currRunning s
  /\ scriptFPS s' = scriptFPS s.
Proof.
  unfold setVariable.
  destruct (variables s !! name);
    destruct (evaluateExpression py_eval _ expression); done.
Qed.

Lemma act_keeps_invariant s a : lifecycleInv s -> lifecycleInv (act' s a).
Proof.
  intros (Hrun & Hlist & Hfps). destruct a as [script env|robot vision
    |robot vision alive|name expression|d]; unfold lifecycleInv.
  - cbn [act].
    destruct (loadScript_frame Events_getattr Commands_getattr s script env)
      as (_ & -> & -> & -> & -> & _). by split_and!.
  - cbn [act]. unfold startThread. destruct (mainThread s) eqn:Hm; simpl.
    + rewrite Hm. by split_and!.
    + by split_and!.
  - cbn [act]. unfold endThread. cbn -[resetVariables].
    destruct (mainThread s) eqn:Hm; [destruct alive|]; cbn -[resetVariables].
    + rewrite Hm. split_and!; [done| |done].
      intros Hc. destruct (Hlist Hc) as [? _]. congruence.
    + by split_and!.
    + rewrite Hm. split_and!; [done| |done]. intros Hc. by split.
  - cbn [act].
    destruct (setVariable_fields s name expression)
      as (_ & -> & -> & -> & ->). by split_and!.
  - cbn [act]. destruct (mainThread s) eqn:Hm; simpl.
    + by split_and!.
    + split_and!; [|intros Hc; by destruct (Hlist Hc)|done].
      intros He. specialize (Hrun He). congruence.
Qed.

Lemma history_keeps_invariant actions :
  forall (st : Interpreter World * list HandleCall),
    lifecycleInv st.1 ->
    lifecycleInv
      (foldl (fun st a => (act' st.1 a,
                           st.2 ++ callsOf (Params:=Params) st.1 a))
             st actions).1.
Proof.
  induction actions as [|a actions IH]; intros st Hinv; simpl; [done|].
  apply IH. simpl. by apply act_keeps_invariant.
Qed.

(** However a fresh interpreter is used, by loads, starts, stops that
    succeed or time out, assignments, and the worker writing the
    status: it counts as running exactly when a worker is attached,
    its exit flag is down only while a worker is attached, and
    [getStatus] never hands out the list that [currRunning] was
    created as. *)
Theorem history_invariants (actions : list (Action (Params:=Params))) :
  let s := (history' init actions).1 in
  (isRunning s = true <-> mainThread s <> None)
  /\ (exiting s = false -> mainThread s <> None)
  /\ getStatus s <> StatusRunning EmptyList
  /\ scriptFPS s = 50%Z.
Proof.
  intros s.
  assert (lifecycleInv s) as (Hrun & Hlist & Hfps).
  { apply history_keeps_invariant. unfold lifecycleInv. simpl.
    split_and!; done. }
  split_and!; try done.
  - unfold isRunning. destruct (exiting s) eqn:He; simpl.
    + rewrite bool_decide_eq_true. done.
    + split; [intros _; by apply Hrun|done].
  - unfold getStatus, isExiting. destruct (exiting s) eqn:He; [done|].
    intros [= Hc]. destruct (Hlist Hc) as [_ ?]. congruence.
Qed.

(** A stop that times out leaves both handles in exiting mode, and a
    start right after it does not lower them again, since the worker
    is still attached; only a later stop that succeeds does. *)
Theorem stuck_stop_leaves_handles_exiting s robot vision :
  mainThread s = None ->
  let stuck :=
    history' s [AStartThread robot vision; AEndThread robot vision true;
                AStartThread robot vision] in
  let freed :=
    history' s [AStartThread robot vision; AEndThread robot vision true;
                AStartThread robot vision; AEndThread robot vision false] in
  (lastRobotExiting stuck.2 = Some true
   /\ lastVisionExiting stuck.2 = Some true
   /\ mainThread stuck.1 <> None
   /\ exiting stuck.1 = true)
  /\ (lastRobotExiting freed.2 = Some false
      /\ lastVisionExiting freed.2 = Some false
      /\ mainThread freed.1 = None).
Proof.
  intros Hnone. unfold history. cbn -[resetVariables].
  unfold startThread, endThread. cbn -[resetVariables].
  rewrite Hnone. cbn -[resetVariables].
  split; split_and!; done.
Qed.

Lemma dict_lookup_notin pairs (m : gmap string Value) k :
  k ∉ map fst pairs ->
  foldl (fun d kv => <[kv.1 := kv.2]> d) m pairs !! k = m !! k.
Proof.
  revert m. induction pairs as [|[k' v] pairs IH]; intros m Hk; simpl; [done|].
  simpl in Hk. apply not_elem_of_cons in Hk as [Hne Hk].
  rewrite IH by done. by rewrite lookup_insert_ne.
Qed.

Lemma resetVariables_other robot vision name :
  name ∉ reservedNames -> resetVariables robot vision !! name = None.
Proof.
  unfold reservedNames. intros Hname.
  apply not_elem_of_app in Hname as [Hsafe Hrest].
  apply not_elem_of_cons in Hrest as [Habs Hrest].
  apply not_elem_of_cons in Hrest as [Hrobot Hrest].
  apply not_elem_of_cons in Hrest as [Hvision _].
  unfold resetVariables, dict.
  rewrite !lookup_insert_ne by done.
  rewrite dict_lookup_notin; [done|].
  rewrite List.map_map. cbn [fst]. by rewrite List.map_id.
Qed.

(** After a stop that succeeded the store holds the reserved names
    and nothing else: every variable a script had set is gone. *)
Theorem endThread_clears_script_variables s robot vision name :
  mainThread s <> None ->
  let stopped := (endThread s robot vision false).1.1 in
  ((getVariable stopped name).2 = true <-> name ∈ reservedNames)
  /\ (name ∉ reservedNames -> getVariable stopped name = (VInt 0, false)).
Proof.
  intros Hworker stopped.
  assert (variables stopped = resetVariables robot vision) as Hvars.
  { unfold stopped, endThread. cbn -[resetVariables].
    destruct (mainThread s); [reflexivity|done]. }
  assert (name ∉ reservedNames -> getVariable stopped name = (VInt 0, false))
    as Hout.
  { intros Hname. unfold getVariable.
    by rewrite Hvars, resetVariables_other. }
  split; [|done]. split.
  - intros Hfound. destruct (decide (name ∈ reservedNames)) as [|Hno]; [done|].
    rewrite (Hout Hno) in Hfound. done.
  - intros Hin. unfold getVariable. rewrite Hvars.
    unfold reservedNames in Hin. apply elem_of_app in Hin as [Hin|Hin].
    + by rewrite resetVariables_safeList.
    + destruct (resetVariables_handles robot vision) as (Ha & Hr & Hv).
      apply elem_of_cons in Hin as [->|Hin]; [by rewrite Ha|].
      apply elem_of_cons in Hin as [->|Hin]; [by rewrite Hr|].
      apply elem_of_cons in Hin as [->|Hin]; [by rewrite Hv|].
      by apply elem_of_nil in Hin.
Qed.

End LifecycleMore.

(** ** More on the variable store *)

Lemma expr_eval_increment vars n :
  vars !! "x" = Some (VInt n) ->
  PyExpr.expr_eval "x+1" vars = Some (Returned (VInt (n + 1))).
Proof.
  intros Hx.
  change (PyExpr.expr_eval "x+1" vars)
    with (PyExpr.eval (PyExpr.EBin PyExpr.Add (PyExpr.EName "x") (PyExpr.EInt 1))
                      vars).
  simpl. by rewrite Hx.
Qed.

Section StoreMore.

Context {World : Type}.
Variable py_eval : string -> gmap string Value -> EvalOutcome.

Implicit Types (s : Interpreter World).


(** A name is given the value 0 before the expression is evaluated,
    so an expression may use the name it assigns to:
    [setVariable("x", "x+1")] counts up from the value of [x], and
    from 0 when [x] was not set. *)
Theorem setVariable_increment s n :
  PyExpr.agrees py_eval ->
  variables s !! "x" = Some (VInt n)
  \/ (variables s !! "x" = None /\ n = 0%Z) ->
  getVariable (setVariable py_eval s "x" "x+1") "x" = (VInt (n + 1), true).
Proof.
  intros Hagree Hx. unfold getVariable.
  rewrite setVariable_variables. cbv zeta.
  rewrite lookup_insert_eq.
  rewrite (evaluateExpression_value _ _ _ (VInt (n + 1))); [done| |done].
  apply Hagree, expr_eval_increment.
  destruct Hx as [Hx|[Hx ->]]; rewrite Hx; simpl; [done|].
  by rewrite lookup_insert_eq.
Qed.

(** The flag of [evaluateExpression] is up exactly when the value is
    not [None], and then the value is what [eval] returned; an
    expression whose value is [None] cannot be told from one that
    crashed. *)
Theorem evaluateExpression_flag s expression :
  let r := evaluateExpression py_eval s expression in
  (r.2 = true <-> r.1 <> VNone)
  /\ (r.2 = true -> py_eval expression (variables s) = Returned r.1)
  /\ (py_eval expression (variables s) = Returned VNone
      \/ py_eval expression (variables s) = Raised -> r = (VNone, false)).
Proof.
  unfold evaluateExpression.
  destruct (py_eval expression (variables s)) as [[]|]; simpl;
    split_and!; try done; try (split; done); intros [?|?]; done.
Qed.

End StoreMore.

(** ** The further properties on sample objects *)

Lemma getNextIndex_no_block_witness :
  getNextIndex 0 [Sample.ifFalse; Sample.cmdA; Sample.cmdB] = 0
  /\ nextCursor [Sample.ifFalse; Sample.cmdA; Sample.cmdB] 0 Skip = Some (0 + 1).
Proof.
  apply (getNextIndex_no_block 0 [Sample.ifFalse; Sample.cmdA; Sample.cmdB]).
  reflexivity.
Defined.

(** A block with a block inside. *)
Lemma getNextIndex_skips_block_witness :
  let pre := [Sample.cmdA] in
  let body := [Sample.cmdX; Sample.startBlock; Sample.cmdY; Sample.endBlock] in
  let post := [Sample.cmdZ] in
  let commandList :=
    pre ++ Sample.ifFalse :: Sample.startBlock :: body
        ++ Sample.endBlock :: post in
  getNextIndex (length pre) commandList = length pre + length body + 2
  /\ commandList !! (length pre + length body + 2) = Some Sample.endBlock
  /\ nextCursor commandList (length pre) Skip
     = Some (length pre + length body + 3)
  /\ commandList !! (length pre + length body + 3) = head post.
Proof.
  apply (getNextIndex_skips_block [Sample.cmdA] Sample.ifFalse Sample.startBlock
           [Sample.cmdX; Sample.startBlock; Sample.cmdY; Sample.endBlock]
           Sample.endBlock [Sample.cmdZ]); reflexivity.
Defined.

Lemma getNextIndex_skips_adjacent_blocks_witness :
  let commandList :=
    [] ++ Sample.ifFalse :: Sample.startBlock :: [Sample.cmdX]
       ++ Sample.endBlock :: Sample.startBlock :: [Sample.cmdY]
       ++ Sample.endBlock :: [Sample.cmdZ] in
  getNextIndex (length (@nil (Command (list string)))) commandList
  = length (@nil (Command (list string))) + length [Sample.cmdX]
    + length [Sample.cmdY] + 4
  /\ commandList !! (length (@nil (Command (list string)))
                     + length [Sample.cmdX] + length [Sample.cmdY] + 4)
     = Some Sample.endBlock.
Proof.
  apply (getNextIndex_skips_adjacent_blocks [] Sample.ifFalse
           Sample.startBlock [Sample.cmdX] Sample.endBlock
           Sample.startBlock [Sample.cmdY] Sample.endBlock [Sample.cmdZ]);
    reflexivity.
Defined.

Lemma getNextIndex_open_block_witness :
  let commandList :=
    [] ++ Sample.ifFalse :: Sample.startBlock :: [Sample.cmdX; Sample.cmdY] in
  getNextIndex (length (@nil (Command (list string)))) commandList
  = length commandList - 1
  /\ nextCursor commandList (length (@nil (Command (list string)))) Skip
     = Some (length commandList)
  /\ commandList !! length commandList = None.
Proof.
  apply (getNextIndex_open_block [] Sample.ifFalse Sample.startBlock
           [Sample.cmdX; Sample.cmdY]); reflexivity.
Defined.

Lemma nextCursor_passes_else_witness :
  let pre := [Sample.ifTrue; Sample.startBlock; Sample.cmdX] in
  let commandList :=
    pre ++ Sample.endBlock :: Sample.elseCommand :: Sample.startBlock
        :: [Sample.cmdY] ++ Sample.endBlock :: [Sample.cmdZ] in
  nextCursor commandList (length pre) Continue
  = Some (length pre + length [Sample.cmdY] + 4)
  /\ commandList !! (length pre + length [Sample.cmdY] + 4)
     = head [Sample.cmdZ].
Proof.
  apply (nextCursor_passes_else
           [Sample.ifTrue; Sample.startBlock; Sample.cmdX] Sample.endBlock
           Sample.elseCommand Sample.startBlock [Sample.cmdY] Sample.endBlock
           [Sample.cmdZ]); reflexivity.
Defined.

Lemma interpretEvent_flat_runs_all_witness :
  exists w',
    interpretEvent Sample.calm
      [Sample.ifFalse; Sample.cmdA; Sample.cmdB; Sample.cmdC] false []
    = Some (seq 0 (length [Sample.ifFalse; Sample.cmdA; Sample.cmdB;
                           Sample.cmdC]), w').
Proof.
  apply (interpretEvent_flat_runs_all Sample.calm
           [Sample.ifFalse; Sample.cmdA; Sample.cmdB; Sample.cmdC] false []).
  - intros c Hc.
    repeat (apply elem_of_cons in Hc as [->|Hc]; [split; reflexivity|]).
    by apply elem_of_nil in Hc.
  - intros c w0 Hc.
    repeat (apply elem_of_cons in Hc as [->|Hc]; [discriminate|]).
    by apply elem_of_nil in Hc.
  - reflexivity.
Defined.

Lemma sameClass_refl e : Demo.sameClass e e = true.
Proof. apply String.eqb_refl. Qed.

Lemma tick_ends_witness :
  exists currRunning w',
    tick Demo.stopAfterFirst Demo.sameClass [Demo.work; Demo.cleanup] []
    = Ended (currRunning, w')
    /\ (forall i ran, currRunning !! i = Some ran ->
                      i < length [Demo.work; Demo.cleanup]
                      /\ StronglySorted lt ran).
Proof.
  apply (tick_ends Demo.stopAfterFirst Demo.sameClass
           [Demo.work; Demo.cleanup] []).
  exact sameClass_refl.
Defined.

Example tick_sample :
  tick Demo.stopAfterFirst Demo.sameClass [Demo.work; Demo.cleanup] []
  = Ended ({[ 0 := [0] ]}, ["Move"]).
Proof. vm_compute. reflexivity. Qed.

Lemma tick_idle_witness :
  tick Demo.stopped Demo.sameClass [Demo.work; Demo.cleanup] []
  = Ended (∅, []).
Proof.
  apply (tick_idle Demo.stopped Demo.sameClass [Demo.work; Demo.cleanup] []).
  left. reflexivity.
Defined.

Lemma programThread_runs_destroy_on_exit_witness :
  exists ran w',
    interpretEvent (fun _ => false) (commandList Demo.cleanup) true []
    = Some (ran, w')
    /\ programThread Demo.stopped Demo.sameClass Demo.alwaysReady 1
                     [Demo.work; Demo.cleanup] ∅ []
       = Ended (<[1 := ran]> ∅, w').
Proof.
  apply (programThread_runs_destroy_on_exit Demo.stopped Demo.sameClass
           Demo.alwaysReady 0 [Demo.work; Demo.cleanup] ∅ []
           Demo.cleanup [] 1); reflexivity.
Defined.

Example programThread_sample :
  programThread Demo.stopped Demo.sameClass Demo.alwaysReady 1
                [Demo.work; Demo.cleanup] ∅ []
  = Ended ({[ 1 := [0; 1] ]}, ["Detach"; "Home"]).
Proof. vm_compute. reflexivity. Qed.

Lemma loadScript_twice_is_append_witness :
  (loadScript Sample.Events_getattr Sample.Commands_getattr
     (loadScript Sample.Events_getattr Sample.Commands_getattr
                 init Sample.tipScript Sample.env).1
     Sample.typoScript Sample.env).1
  = (loadScript Sample.Events_getattr Sample.Commands_getattr
                init (Sample.tipScript ++ Sample.typoScript) Sample.env).1.
Proof.
  apply (loadScript_twice_is_append Sample.Events_getattr
           Sample.Commands_getattr init Sample.tipScript Sample.typoScript
           Sample.env).
  reflexivity.
Defined.

Lemma loadScript_stops_at_unknown_event_witness :
  let bad := {| es_typeLogic := "KeypressEvent"; es_parameters := tt;
                es_commandList := [] |} in
  loadScript Sample.Events_getattr Sample.Commands_getattr
             init (Sample.tipScript ++ bad :: Sample.tipScript) Sample.env
  = (set_events init
       (events (@init unit)
        ++ omap (builtEvent Sample.Events_getattr Sample.Commands_getattr
                            Sample.env) Sample.tipScript),
     Raise).
Proof.
  apply (loadScript_stops_at_unknown_event Sample.Events_getattr
           Sample.Commands_getattr init Sample.tipScript
           {| es_typeLogic := "KeypressEvent"; es_parameters := tt;
              es_commandList := [] |} Sample.tipScript Sample.env);
    reflexivity.
Defined.

Lemma loadScript_stops_at_unknown_command_witness :
  let wait := {| cs_typeLogic := "WaitCommand"; cs_parameters := tt |} in
  let typo := {| cs_typeLogic := "MoveXZYCommand"; cs_parameters := tt |} in
  let bad := {| es_typeLogic := "InitEvent"; es_parameters := tt;
                es_commandList := [wait; typo] |} in
  let eventType := fun (_ : Environment) (_ : unit) =>
                     emptyEvent (World:=unit) "InitEvent" [] in
  loadScript Sample.Events_getattr Sample.Commands_getattr
             init ([] ++ bad :: Sample.tipScript) Sample.env
  = (set_events init
       (events (@init unit)
        ++ omap (builtEvent Sample.Events_getattr Sample.Commands_getattr
                            Sample.env) []
        ++ [withCommands (eventType Sample.env (es_parameters bad))
                         (builtCommands Sample.Commands_getattr Sample.env
                                        [wait])]),
     Raise).
Proof.
  apply (loadScript_stops_at_unknown_command Sample.Events_getattr
           Sample.Commands_getattr init []
           {| es_typeLogic := "InitEvent"; es_parameters := tt;
              es_commandList :=
                [ {| cs_typeLogic := "WaitCommand"; cs_parameters := tt |};
                  {| cs_typeLogic := "MoveXZYCommand"; cs_parameters := tt |} ] |}
           Sample.tipScript
           [ {| cs_typeLogic := "WaitCommand"; cs_parameters := tt |} ]
           {| cs_typeLogic := "MoveXZYCommand"; cs_parameters := tt |}
           []
           (fun _ _ => emptyEvent "InitEvent" []) Sample.env);
    reflexivity.
Defined.

Lemma endThread_after_clean_stop_witness :
  let s := (startThread (@init unit) (VObject "robot") (VObject "vision")).1 in
  let stopped := (endThread s (VObject "robot") (VObject "vision") false).1.1 in
  endThread stopped (VObject "robot") (VObject "vision") true
  = (stopped, [], None).
Proof.
  apply (endThread_after_clean_stop
           (startThread (@init unit) (VObject "robot") (VObject "vision")).1
           (VObject "robot") (VObject "vision")
           (VObject "robot") (VObject "vision") true).
  discriminate.
Defined.

Lemma stuck_stop_leaves_handles_exiting_witness :
  let robot := VObject "robot" in
  let vision := VObject "vision" in
  let stuck :=
    history Sample.Events_getattr Sample.Commands_getattr PyExpr.strict_eval
            init
            [AStartThread robot vision; AEndThread robot vision true;
             AStartThread robot vision] in
  let freed :=
    history Sample.Events_getattr Sample.Commands_getattr PyExpr.strict_eval
            init
            [AStartThread robot vision; AEndThread robot vision true;
             AStartThread robot vision; AEndThread robot vision false] in
  (lastRobotExiting stuck.2 = Some true
   /\ lastVisionExiting stuck.2 = Some true
   /\ mainThread stuck.1 <> None
   /\ exiting stuck.1 = true)
  /\ (lastRobotExiting freed.2 = Some false
      /\ lastVisionExiting freed.2 = Some false
      /\ mainThread freed.1 = None).
Proof.
  apply (stuck_stop_leaves_handles_exiting Sample.Events_getattr
           Sample.Commands_getattr PyExpr.strict_eval init
           (VObject "robot") (VObject "vision")).
  reflexivity.
Defined.

(** A counter set by a script, then a stop. *)
Lemma endThread_clears_script_variables_witness :
  let s := setVariable PyExpr.strict_eval
             (startThread (@init unit) (VObject "robot") (VObject "vision")).1
             "counter" "1+1" in
  let stopped := (endThread s (VObject "robot") (VObject "vision") false).1.1 in
  getVariable s "counter" = (VInt 2, true)
  /\ ((getVariable stopped "counter").2 = true <-> "counter" ∈ reservedNames)
  /\ ("counter" ∉ reservedNames ->
      getVariable stopped "counter" = (VInt 0, false)).
Proof.
  split; [vm_compute; reflexivity|].
  apply (endThread_clears_script_variables
           (setVariable PyExpr.strict_eval
              (startThread (@init unit) (VObject "robot") (VObject "vision")).1
              "counter" "1+1")
           (VObject "robot") (VObject "vision") "counter").
  discriminate.
Defined.

Lemma setVariable_increment_witness :
  getVariable (setVariable PyExpr.strict_eval (@init unit) "x" "x+1") "x"
  = (VInt (0 + 1), true).
Proof.
  apply (setVariable_increment PyExpr.strict_eval (@init unit) 0).
  - exact strict_eval_agrees.
  - right. split; reflexivity.
Defined.
